(** * react-course-part2-starter: reducers, optimistic mutation, query cache

    A shallow embedding of the state-handling code of the repository and of
    the cache that its specification describes.

    From the source:
    - [Tasks]  : [taskReducer]  (src/state-management/reducers/tasksReducer.ts,
                 repeated in src/state-management/tasks/TaskProvider.tsx);
    - [Auth]   : [AuthReducer]  (src/state-management/reducers/logInReducer.ts);
    - [AddTodo]: the callbacks of [useAddTodo] ([onMutate], [onSuccess],
                 [onError]), over the query client's read and write;
    - [Counter]: the counter store (counter/store.ts) with the [max] property
                 of the notes;
    - [CounterReducer]: [counterReducer] and the buttons of Counter.tsx;
    - [LoginStatus]: the login link over [AuthReducer];
    - [Posts], [PagedPosts]: the parameters, page numbers and keys of
                 [usePosts], and the buttons of PostList.

    From the specification, the libraries' code being no part of the
    repository:
    - [KeyCodec]   : query keys and [isPrefixOf];
    - [AddTodo]    : the query client's read and write, by what they hold;
    - [Counter]    : the notification rule of selector subscriptions;
    - [QueryCache] : cache entries, the store and the query executor
                     (staleness, deduplication, retry, invalidation).

    From the library that the notes install (@tanstack/react-query@4.28):
    - [StructuralSharing]: the client's write as the library does it, which
                     shares structure with the data it replaces, and the
                     callbacks of [useAddTodo] over it.

    JavaScript numbers that the program only ever produces as integers
    (task ids come from [Date.now()], todo ids and counters from integer
    literals and [+ 1]) are integers of [Z]; strict (in)equality [===] / [!==]
    on them is (dis)equality of [Z].  Arrays and objects are immutable values
    where the program only reads them, and references into a heap where their
    identity matters. *)

From stdpp Require Import gmap strings list fin_maps.

Local Open Scope Z_scope.

(* ===================================================================== *)
(** * The task reducer *)
(* ===================================================================== *)

Module Tasks.

(** [interface Task { id: number; title: string }] *)
Record Task := { id : Z; title : string }.

#[global] Instance Task_eq_dec : EqDecision Task.
Proof. solve_decision. Defined.

(** [type TaskAction = AddTask | DeleteTask].  The TypeScript union has the
    two tagged shapes; the [switch] of the reducer also has a [default]
    branch, reached at run time by an action object whose [type] is neither
    ["ADD"] nor ["DELETE"]: that is [Unlisted]. *)
Inductive TaskAction :=
| AddTask (task : Task)
| DeleteTask (taskId : Z)
| Unlisted.

(** tasksReducer.ts, lines 20-31:
<<
switch (action.type) {
  case "ADD":    return [action.task, ...tasks];
  case "DELETE": return tasks.filter((task) => action.taskId !== task.id);
  default:       return tasks;
}
>> *)
Definition taskReducer (tasks : list Task) (action : TaskAction) : list Task :=
  match action with
  | AddTask task => task :: tasks
  | DeleteTask taskId => filter (λ task, taskId ≠ id task) tasks
  | Unlisted => tasks
  end.

(** ** Array identity

    A JavaScript array is an object on the heap and [tasks] is a reference to
    it.  The spread literal and [Array.prototype.filter] both build a new
    array and leave their operand alone; the [default] branch hands back the
    very reference it received. *)

Definition loc := positive.

Definition alloc (h : gmap loc (list Task)) (v : list Task)
  : gmap loc (list Task) * loc :=
  let l := fresh (dom h) in (<[l := v]> h, l).

Definition taskReducer_run (h : gmap loc (list Task)) (tasks : loc)
    (action : TaskAction) : option (gmap loc (list Task) * loc) :=
  match h !! tasks with
  | None => None
  | Some ts =>
      match action with
      | AddTask _ | DeleteTask _ => Some (alloc h (taskReducer ts action))
      | Unlisted => Some (h, tasks)
      end
  end.

End Tasks.

(* ===================================================================== *)
(** * The login reducer *)
(* ===================================================================== *)

Module Auth.

(** [type LogAction = LogIn | LogOut]; as for tasks, [Unlisted] is an action
    object whose [type] is neither ["LOGIN"] nor ["LOGOUT"]. *)
Inductive LogAction :=
| LogIn (user : string)
| LogOut
| Unlisted.

(** logInReducer.ts, lines 12-16:
<<
if (action.type === "LOGIN") return action.user;
if (action.type === "LOGOUT") return "";
return "";
>> *)
Definition AuthReducer (state : string) (action : LogAction) : string :=
  match action with
  | LogIn user => user
  | LogOut => ""
  | Unlisted => ""
  end.

End Auth.

(* ===================================================================== *)
(** * Query keys *)
(* ===================================================================== *)

Module KeyCodec.

(** A query key is an array of segments: strings ([["todos"]]), numbers
    ([["users", 7, "posts"]]) and plain objects ([["posts", { pageSize }]],
    usePosts); an object segment is its fields in the order written. *)
Inductive Segment :=
| SegStr (s : string)
| SegNum (n : Z)
| SegObj (fields : list (string * Z)).

#[global] Instance Segment_eq_dec : EqDecision Segment.
Proof. solve_decision. Defined.

Definition Segment_to_sum (s : Segment) : string + Z + list (string * Z) :=
  match s with
  | SegStr s => inl (inl s)
  | SegNum n => inl (inr n)
  | SegObj fs => inr fs
  end.

Definition Segment_of_sum (s : string + Z + list (string * Z)) : Segment :=
  match s with
  | inl (inl s) => SegStr s
  | inl (inr n) => SegNum n
  | inr fs => SegObj fs
  end.

#[global] Instance Segment_countable : Countable Segment.
Proof.
  apply (inj_countable' Segment_to_sum Segment_of_sum).
  by intros [].
Defined.

Abbreviation Key := (list Segment).

(** Modelled from the spec: the Key Codec's [isPrefixOf(a, b)] (section 4.1),
    "all segments of key A are a prefix of key B"; the repository only calls
    the library that implements it. *)
Fixpoint isPrefixOf (a b : Key) : bool :=
  match a, b with
  | [], _ => true
  | _ :: _, [] => false
  | x :: a', y :: b' => bool_decide (x = y) && isPrefixOf a' b'
  end.

(** [export const CACHE_KEY_TODOS = ["todos"];] *)
Definition CACHE_KEY_TODOS : Key := [SegStr "todos"].

End KeyCodec.

(* ===================================================================== *)
(** * The optimistic "add todo" mutation *)
(* ===================================================================== *)

Module AddTodo.
Import KeyCodec.

(** The [Todo] objects that TodoForm submits and the server answers with:
    [{ id, title, userId, completed }]. *)
Record Todo := { id : Z; title : string; userId : Z; completed : bool }.

(** Todos are objects: [onSuccess] compares them with [===], which on objects
    is identity of reference.  A todo in the cache is therefore a reference,
    and the objects themselves live in a heap. *)
Definition ref := positive.

(** The data that the query client holds under each key; under ["todos"] it is
    an array of todo references. *)
Abbreviation QueryData := (gmap Key (list ref)).

(** Modelled from the spec: the query client's direct cache read and write,
    [getSnapshot(key)] / [setSnapshot(key, value)] of section 6, which the
    hook calls as [queryClient.getQueryData] and [queryClient.setQueryData]
    (the client itself is the library's).  A key without data reads as
    [undefined], here [None]; a write stores the very array it is given,
    which is right for what the cache holds after a write, not for which
    objects hold it: for those see [StructuralSharing]. *)
Definition getQueryData (c : QueryData) (k : Key) : option (list ref) := c !! k.

(** Modelled from the spec: [setSnapshot(key, value)], the direct write. *)
Definition setQueryData (c : QueryData) (k : Key) (v : list ref) : QueryData :=
  <[k := v]> c.

(** Modelled from the spec: [setQueryData(key, updater)], the same write with
    the value computed from the current one.  An updater that answers
    [undefined] writes nothing. *)
Definition setQueryDataWith (c : QueryData) (k : Key)
    (updater : option (list ref) → option (list ref)) : QueryData :=
  match updater (getQueryData c k) with
  | Some v => setQueryData c k v
  | None => c
  end.

(** [interface AddTodoContext { prvsTodos: Todo[] }] *)
Record AddTodoContext := { prvsTodos : list ref }.

(** useAddTodo, [onMutate] (the [onAdd()] call only clears the form's input):
<<
  const prvsTodos = queryClient.getQueryData<Todo[]>(CACHE_KEY_TODOS) || [];
  queryClient.setQueryData<Todo[]>(CACHE_KEY_TODOS, (todos) => [
    newTodo,
    ...(todos || []),
  ]);
  onAdd();
  return { prvsTodos };
>> *)
Definition onMutate (c : QueryData) (newTodo : ref) : QueryData * AddTodoContext :=
  let prvs := default [] (getQueryData c CACHE_KEY_TODOS) in
  let c' := setQueryDataWith c CACHE_KEY_TODOS
              (λ todos, Some (newTodo :: default [] todos)) in
  (c', {| prvsTodos := prvs |}).

(** useAddTodo, [onSuccess]:
<<
  queryClient.setQueryData<Todo[]>(CACHE_KEY_TODOS, (todos) =>
    todos?.map((todo) => (todo === newTodo ? savedTodo : todo))
  );
>> *)
Definition onSuccess (c : QueryData) (savedTodo newTodo : ref) : QueryData :=
  setQueryDataWith c CACHE_KEY_TODOS
    (λ todos, (λ l, map (λ todo, if decide (todo = newTodo) then savedTodo else todo) l)
                <$> todos).

(** useAddTodo, [onError]:
<<
  if (!context) return;
  queryClient.setQueryData(CACHE_KEY_TODOS, context.prvsTodos);
>> *)
Definition onError (c : QueryData) (context : option AddTodoContext) : QueryData :=
  match context with
  | None => c
  | Some ctx => setQueryData c CACHE_KEY_TODOS (prvsTodos ctx)
  end.

(** One run of the mutation: [onMutate] first, then the remote write, whose
    outcome is either the saved todo or an error, then the matching callback.
    [between] is whatever happens to the cache while the request is awaited. *)
Inductive Outcome := Saved (savedTodo : ref) | Failed (error : string).

Definition mutate (between : QueryData → QueryData) (c : QueryData)
    (newTodo : ref) (outcome : Outcome) : QueryData * option string :=
  let '(c1, ctx) := onMutate c newTodo in
  let c2 := between c1 in
  match outcome with
  | Saved savedTodo => (onSuccess c2 savedTodo newTodo, None)
  | Failed error => (onError c2 (Some ctx), Some error)
  end.

(** The objects behind an array of references. *)
Definition contents (objects : gmap ref Todo) (l : list ref) : list Todo :=
  omap (λ r, objects !! r) l.

(** The array that [onSuccess] computes from the one in the cache. *)
Definition swap (savedTodo newTodo : ref) (l : list ref) : list ref :=
  map (λ todo, if decide (todo = newTodo) then savedTodo else todo) l.

(** The scenario of the specification: [{id: 0, title: "X"}] is submitted,
    the server answers [{id: 42, title: "X"}]. *)
Definition submitted : Todo := {| id := 0; title := "X"; userId := 1; completed := false |}.
Definition saved : Todo := {| id := 42; title := "X"; userId := 1; completed := false |}.
Definition earlier : Todo := {| id := 7; title := "W"; userId := 1; completed := true |}.

(** Mutations that fail, one after the other. *)
Definition failing (c : QueryData) (newTodos : list ref) (error : string)
    : QueryData :=
  foldl (λ c newTodo, (mutate Datatypes.id c newTodo (Failed error)).1) c newTodos.

End AddTodo.

(* ===================================================================== *)
(** * The "add todo" mutation over the library's write *)
(* ===================================================================== *)

Module StructuralSharing.
Import KeyCodec.

(** The write of [AddTodo] keeps what it is given, which is right for the
    contents of the cache.  The client that the hook calls is
    @tanstack/react-query@4.28 (the version the notes install), and its
    [setQueryData] does not store what it is given: it shares structure with
    the data the entry held.  That decides what [todo === newTodo] finds, so
    this module has the objects, the client's write as the library does it,
    and the callbacks of [useAddTodo] over it. *)

Abbreviation Todo := AddTodo.Todo.
Abbreviation ref := AddTodo.ref.

#[global] Instance Todo_eq_dec : EqDecision AddTodo.Todo.
Proof. solve_decision. Defined.

(** The objects of the program and, under each key, the data of the client:
    arrays of references to todo objects. *)
Record Client := { heap : gmap ref Todo; queries : gmap Key (list ref) }.

(** Modelled from the library (react-query 4.28, [replaceEqualDeep(a, b)],
    whose code is no part of the repository), on two todo objects: [a] itself
    if [a === b], or if every field of [b] equals [a]'s; otherwise a copy, a
    new object with the fields of [b]. *)
Definition replaceEqualDeep_todo (h : gmap ref Todo) (a b : ref)
    : gmap ref Todo * ref :=
  if decide (a = b) then (h, a)
  else match h !! a, h !! b with
       | Some ta, Some tb =>
           if decide (ta = tb) then (h, a)
           else (<[fresh (dom h) := tb]> h, fresh (dom h))
       | _, _ => (h, b)
       end.

(** Modelled from the library: [replaceEqualDeep(a, b)] on two arrays of
    todos.  The result has the length of [b]; at each index that [a] has, it
    holds [replaceEqualDeep(a[i], b[i])]; past the end of [a] it holds [b[i]]
    itself. *)
Fixpoint replaceEqualDeep (h : gmap ref Todo) (a b : list ref) {struct b}
    : gmap ref Todo * list ref :=
  match b with
  | [] => (h, [])
  | rb :: b' =>
      match a with
      | [] => (h, b)
      | ra :: a' =>
          let '(h1, r) := replaceEqualDeep_todo h ra rb in
          let '(h2, l) := replaceEqualDeep h1 a' b' in
          (h2, r :: l)
      end
  end.

(** Modelled from the library: [queryClient.getQueryData(key)]. *)
Definition getQueryData (c : Client) (k : Key) : option (list ref) :=
  queries c !! k.

(** Modelled from the library: [queryClient.setQueryData(key, value)].  With
    no data under the key the value is stored as it is; otherwise what is
    stored is [replaceEqualDeep(previous, value)] (structural sharing, which
    is on unless a query turns it off, and [useTodos] does not). *)
Definition setQueryData (c : Client) (k : Key) (v : list ref) : Client :=
  match queries c !! k with
  | None => {| heap := heap c; queries := <[k := v]> (queries c) |}
  | Some previous =>
      let '(h, l) := replaceEqualDeep (heap c) previous v in
      {| heap := h; queries := <[k := l]> (queries c) |}
  end.

(** Modelled from the library: [setQueryData(key, updater)]; an updater that
    answers [undefined] writes nothing. *)
Definition setQueryDataWith (c : Client) (k : Key)
    (updater : option (list ref) → option (list ref)) : Client :=
  match updater (getQueryData c k) with
  | Some v => setQueryData c k v
  | None => c
  end.

(** useAddTodo, [onMutate]:
<<
  const prvsTodos = queryClient.getQueryData<Todo[]>(CACHE_KEY_TODOS) || [];
  queryClient.setQueryData<Todo[]>(CACHE_KEY_TODOS, (todos) => [
    newTodo,
    ...(todos || []),
  ]);
  onAdd();
  return { prvsTodos };
>> *)
Definition onMutate (c : Client) (newTodo : ref)
    : Client * AddTodo.AddTodoContext :=
  let prvs := default [] (getQueryData c CACHE_KEY_TODOS) in
  let c' := setQueryDataWith c CACHE_KEY_TODOS
              (λ todos, Some (newTodo :: default [] todos)) in
  (c', {| AddTodo.prvsTodos := prvs |}).

(** useAddTodo, [onSuccess]:
<<
  queryClient.setQueryData<Todo[]>(CACHE_KEY_TODOS, (todos) =>
    todos?.map((todo) => (todo === newTodo ? savedTodo : todo))
  );
>> *)
Definition onSuccess (c : Client) (savedTodo newTodo : ref) : Client :=
  setQueryDataWith c CACHE_KEY_TODOS
    (λ todos, (λ l, map (λ todo, if decide (todo = newTodo) then savedTodo else todo) l)
                <$> todos).

(** useAddTodo, [onError]:
<<
  if (!context) return;
  queryClient.setQueryData(CACHE_KEY_TODOS, context.prvsTodos);
>> *)
Definition onError (c : Client) (context : option AddTodo.AddTodoContext)
    : Client :=
  match context with
  | None => c
  | Some ctx => setQueryData c CACHE_KEY_TODOS (AddTodo.prvsTodos ctx)
  end.

(** A new object: the object literal that TodoForm hands to [mutate], and
    the object that the HTTP client builds from the server's answer. *)
Definition alloc (c : Client) (t : Todo) : Client * ref :=
  ({| heap := <[fresh (dom (heap c)) := t]> (heap c); queries := queries c |},
   fresh (dom (heap c))).

(** What the server answers: the saved todo, or an error. *)
Inductive Outcome := Saved (savedTodo : Todo) | Failed (error : string).

(** [addTodo.mutate({ id: 0, title: ..., userId: 1, completed: false })]:
    the submitted object is built, [onMutate] runs, the request is awaited,
    and [onSuccess] runs with the object of the answer, or [onError] with
    the context. *)
Definition mutate (c : Client) (submitted : Todo) (outcome : Outcome)
    : Client * option string :=
  let '(c0, newTodo) := alloc c submitted in
  let '(c1, ctx) := onMutate c0 newTodo in
  match outcome with
  | Saved saved =>
      let '(c2, savedTodo) := alloc c1 saved in
      (onSuccess c2 savedTodo newTodo, None)
  | Failed error => (onError c1 (Some ctx), Some error)
  end.

(** The todos under [["todos"]], by their contents. *)
Definition todos (c : Client) : option (list Todo) :=
  AddTodo.contents (heap c) <$> getQueryData c CACHE_KEY_TODOS.

(** Every reference of the cached list is an object of the program. *)
Definition closed (c : Client) : Prop :=
  ∀ l r, queries c !! CACHE_KEY_TODOS = Some l → r ∈ l → is_Some (heap c !! r).

(** The scenario of the specification on a list that holds one todo. *)
Definition one_cached : Client :=
  {| heap := {[ 1%positive := AddTodo.earlier ]};
     queries := {[ CACHE_KEY_TODOS := [1%positive] ]} |}.

End StructuralSharing.

(* ===================================================================== *)
(** * The counter store and selector subscriptions *)
(* ===================================================================== *)

Module Counter.

(** The state held by [useCounterStore] (counter/store.ts): [counter], and
    the [max] property that the notes add to it ("add a new property called
    max ... initialize the max property with a value of 5").  The two
    functions of the store are not state. *)
Record CounterStore := { counter : Z; max : Z }.

#[global] Instance CounterStore_eq_dec : EqDecision CounterStore.
Proof. solve_decision. Defined.

(** The object handed to zustand's [set]: some of the store's properties. *)
Record Partial := { set_counter : option Z; set_max : option Z }.

(** [create<CounterStore>((set) => ({ counter: 0, ... }))], with [max: 5]. *)
Definition initial : CounterStore := {| counter := 0; max := 5 |}.

(** [increament: () => set((store) => ({ counter: store.counter + 1 }))] *)
Definition increament (store : CounterStore) : Partial :=
  {| set_counter := Some (counter store + 1); set_max := None |}.

(** [reset: () => set(() => ({ counter: 0 }))] *)
Definition reset (store : CounterStore) : Partial :=
  {| set_counter := Some 0; set_max := None |}.

(** The [reset] of the notes' demonstration: "instead of resetting the
    counter, it sets max to 10". *)
Definition reset_max (store : CounterStore) : Partial :=
  {| set_counter := None; set_max := Some 10 |}.

(** Modelled from the spec: the store's write is a shallow merge
    ([upsert(key, patch)], section 4.2); zustand's [set] is the library's. *)
Definition merge (s : CounterStore) (p : Partial) : CounterStore :=
  {| counter := default (counter s) (set_counter p);
     max := default (max s) (set_max p) |}.

(** Modelled from the spec: the Observer Registry's two kinds of subscriber
    (section 4.5): [subscribe(key, listener)] and
    [subscribe(key, selector, listener)].  A selector projects the state to a
    value that can be compared for equality. *)
Inductive Subscriber :=
| Plain
| Selecting (A : Type) (eqA : EqDecision A) (selector : CounterStore → A).

(** [useCounterStore()] as NavBar and Counter call it, and
    [useCounterStore((s) => s.counter)] as the notes have NavBar call it. *)
Definition whole_store : Subscriber := Plain.
Definition select_counter : Subscriber := Selecting Z _ counter.
Definition select_max : Subscriber := Selecting Z _ max.

(** Modelled from the spec: "plain subscribers are always notified; selector
    subscribers are notified only if selector(newData) is not equal (by value)
    to selector(previousData)" (section 4.5). *)
Definition notifies (sub : Subscriber) (previousData newData : CounterStore) : bool :=
  match sub with
  | Plain => true
  | Selecting A eqA selector =>
      bool_decide (selector newData ≠ selector previousData)
  end.

(** Modelled from the spec: one store update.  The new state is the merge of
    the partial computed from the old one; the result tells, for each
    subscriber of the registry in turn, whether its listener is called. *)
Definition set (subscribers : list Subscriber) (s : CounterStore)
    (f : CounterStore → Partial) : CounterStore * list bool :=
  let s' := merge s (f s) in
  (s', map (λ sub, notifies sub s s') subscribers).

End Counter.

(* ===================================================================== *)
(** * The query cache and its executor *)
(* ===================================================================== *)

Module QueryCache.
Import KeyCodec.

(** Modelled from the spec: the whole of this module.  The repository calls
    the query library ([useQuery], [QueryClient], [invalidateQueries]) and
    holds none of its code; the definitions below follow sections 3, 4.2, 4.3,
    4.5 and 6 of the specification, rule by rule.  The Garbage Collector of
    section 4.6 is not part of the executor and is not modelled. *)

(** Modelled from the spec: "[status]: one of [idle | loading | success |
    error]" (section 3). *)
Inductive Status := Idle | Loading | Success | Error.

#[global] Instance Status_eq_dec : EqDecision Status.
Proof. solve_decision. Defined.

(** Modelled from the spec: the identifier of a fetch, [inFlightRequestId]. *)
Definition RequestId := nat.

(** Modelled from the spec: the options of [query(key, fetcher, options)] that
    bear on fetching (section 6). *)
Record Options := {
  opt_staleAfterMs : Z;
  opt_retentionMs : Z;
  opt_retryCount : nat
}.

(** The library's defaults as the notes give them: [retry: 3],
    [cacheTime: 300_000], and a stale time whose default is zero. *)
Definition defaultOptions : Options :=
  {| opt_staleAfterMs := 0; opt_retentionMs := 300000; opt_retryCount := 3%nat |}.

(** useTodos: [staleTime: 100 * 1000]. *)
Definition useTodosOptions : Options :=
  {| opt_staleAfterMs := 100 * 1000; opt_retentionMs := 300000; opt_retryCount := 3%nat |}.

Section Cache.
Context {Data Err : Type}.

(** Modelled from the spec: the Cache Entry of section 3, attribute by
    attribute; [data] is opaque to the cache.  Two more attributes carry what
    the rules of section 4.3 refer to: [invalidated] ("or if explicitly
    invalidated") and [retryCount] (the [N] of the retry policy). *)
Record CacheEntry := {
  key : Key;
  data : option Data;
  status : Status;
  error : option Err;
  lastUpdatedAt : option Z;
  staleAfterMs : Z;
  retentionMs : Z;
  observerCount : nat;
  inFlightRequestId : option RequestId;
  invalidated : bool;
  retryCount : nat
}.

(** Modelled from the spec: the entry that [upsert] creates "with defaults". *)
Definition newEntry (k : Key) : CacheEntry :=
  {| key := k; data := None; status := Idle; error := None;
     lastUpdatedAt := None;
     staleAfterMs := opt_staleAfterMs defaultOptions;
     retentionMs := opt_retentionMs defaultOptions;
     observerCount := 0%nat; inFlightRequestId := None; invalidated := false;
     retryCount := opt_retryCount defaultOptions |}.

(** Modelled from the spec: the patches that the executor merges into an
    entry through [upsert]; first, the options of a [query] call. *)
Definition with_options (o : Options) (e : CacheEntry) : CacheEntry :=
  {| key := key e; data := data e; status := status e; error := error e;
     lastUpdatedAt := lastUpdatedAt e;
     staleAfterMs := opt_staleAfterMs o; retentionMs := opt_retentionMs o;
     observerCount := observerCount e;
     inFlightRequestId := inFlightRequestId e; invalidated := invalidated e;
     retryCount := opt_retryCount o |}.

(** Modelled from the spec: the entry "transitions back to [loading] while
    retaining the previous [data]" (section 4.3); [error] is "present only
    when [status = error]" (section 3). *)
Definition to_loading (rid : RequestId) (e : CacheEntry) : CacheEntry :=
  {| key := key e; data := data e; status := Loading; error := None;
     lastUpdatedAt := lastUpdatedAt e;
     staleAfterMs := staleAfterMs e; retentionMs := retentionMs e;
     observerCount := observerCount e;
     inFlightRequestId := Some rid; invalidated := invalidated e;
     retryCount := retryCount e |}.

(** Modelled from the spec: on completion the executor "writes the result
    back" (section 2); [lastUpdatedAt] is the time of this write. *)
Definition to_success (d : Data) (now : Z) (e : CacheEntry) : CacheEntry :=
  {| key := key e; data := Some d; status := Success; error := None;
     lastUpdatedAt := Some now;
     staleAfterMs := staleAfterMs e; retentionMs := retentionMs e;
     observerCount := observerCount e;
     inFlightRequestId := None; invalidated := false;
     retryCount := retryCount e |}.

(** Modelled from the spec: the entry goes to [error], and "on [error], the
    last known good [data] remains available" (section 7). *)
Definition to_error (err : Err) (e : CacheEntry) : CacheEntry :=
  {| key := key e; data := data e; status := Error; error := Some err;
     lastUpdatedAt := lastUpdatedAt e;
     staleAfterMs := staleAfterMs e; retentionMs := retentionMs e;
     observerCount := observerCount e;
     inFlightRequestId := None; invalidated := invalidated e;
     retryCount := retryCount e |}.

(** Modelled from the spec: [invalidate] "marks matching entries stale". *)
Definition with_invalidated (e : CacheEntry) : CacheEntry :=
  {| key := key e; data := data e; status := status e; error := error e;
     lastUpdatedAt := lastUpdatedAt e;
     staleAfterMs := staleAfterMs e; retentionMs := retentionMs e;
     observerCount := observerCount e;
     inFlightRequestId := inFlightRequestId e; invalidated := true;
     retryCount := retryCount e |}.

(** Modelled from the spec: [observerCount] as [subscribe] and [unsubscribe]
    set it. *)
Definition with_observers (n : nat) (e : CacheEntry) : CacheEntry :=
  {| key := key e; data := data e; status := status e; error := error e;
     lastUpdatedAt := lastUpdatedAt e;
     staleAfterMs := staleAfterMs e; retentionMs := retentionMs e;
     observerCount := n;
     inFlightRequestId := inFlightRequestId e; invalidated := invalidated e;
     retryCount := retryCount e |}.

(** Modelled from the spec: the staleness rule of section 4.3, "an entry is
    stale if [now - lastUpdatedAt > staleAfterMs], or if explicitly
    invalidated".  An entry that was never written has no age and is stale. *)
Definition stale (now : Z) (e : CacheEntry) : bool :=
  invalidated e ||
  match lastUpdatedAt e with
  | None => true
  | Some t => bool_decide (staleAfterMs e < now - t)
  end.

(** Modelled from the spec: a network call that has been issued and not yet
    answered: the key, the request identity, and how many attempts of this
    request have failed. *)
Record Fetch := { f_key : Key; f_id : RequestId; f_failures : nat }.

(** Modelled from the spec: the Query Executor over the Cache Store: the
    store, the outstanding network calls, the next request identity, and the
    two effects the executor has on the outside, in order: every network call
    issued and every notification of observers. *)
Record Executor := {
  store : gmap Key CacheEntry;
  pending : list Fetch;
  nextRequestId : RequestId;
  calls : list (Key * RequestId);
  notified : list (Key * Status)
}.

(** Modelled from the spec: a cache just created. *)
Definition init : Executor :=
  {| store := ∅; pending := []; nextRequestId := 0%nat; calls := []; notified := [] |}.

(** Modelled from the spec: [get(key)] of the Cache Store, with the entry
    that a first access would create. *)
Definition entry (k : Key) (x : Executor) : CacheEntry :=
  default (newEntry k) (store x !! k).

(** Modelled from the spec: [upsert(key, patch)] (section 4.2), which "merges
    into the existing entry or creates one with defaults" and is "the single
    point where observers are notified". *)
Definition upsert (k : Key) (patch : CacheEntry → CacheEntry) (x : Executor)
    : Executor :=
  let e := patch (entry k x) in
  {| store := <[k := e]> (store x); pending := pending x;
     nextRequestId := nextRequestId x; calls := calls x;
     notified := notified x ++ [(k, status e)] |}.

(** Modelled from the spec: [findByPrefix(prefix)] (section 4.2). *)
Definition findByPrefix (prefix : Key) (x : Executor) : list Key :=
  filter (λ k, Is_true (isPrefixOf prefix k)) (elements (dom (store x))).

(** Modelled from the spec: issuing a fetch for [k] (section 4.3): the entry
    goes to [loading] under a new request identity and one network call
    leaves. *)
Definition startFetch (k : Key) (x : Executor) : Executor :=
  let rid := nextRequestId x in
  let x1 := upsert k (to_loading rid) x in
  {| store := store x1;
     pending := pending x1 ++ [{| f_key := k; f_id := rid; f_failures := 0%nat |}];
     nextRequestId := S rid;
     calls := calls x1 ++ [(k, rid)];
     notified := notified x1 |}.

(** Modelled from the spec: what [query] hands to its caller, [{data, status,
    error}] (section 6), and the request whose eventual result the caller
    "registers to receive" (section 4.3). *)
Record QueryResult := {
  r_data : option Data;
  r_status : Status;
  r_error : option Err;
  r_attached : option RequestId
}.

Definition result_of (e : CacheEntry) : QueryResult :=
  {| r_data := data e; r_status := status e; r_error := error e;
     r_attached := inFlightRequestId e |}.

(** Modelled from the spec: [query(key, fetcher, options)] (sections 4.3 and
    6).  With a fetch in flight the call attaches to it (deduplication rule);
    a fresh entry is served without a network call; a stale or new one is
    fetched. *)
Definition query (k : Key) (o : Options) (now : Z) (x : Executor)
    : Executor * QueryResult :=
  let x1 := upsert k (with_options o) x in
  let x2 := match inFlightRequestId (entry k x1) with
            | Some _ => x1
            | None => if stale now (entry k x1) then startFetch k x1 else x1
            end in
  (x2, result_of (entry k x2)).

Definition is_fetch (k : Key) (rid : RequestId) (f : Fetch) : Prop :=
  f_key f = k ∧ f_id f = rid.

#[global] Instance is_fetch_dec k rid f : Decision (is_fetch k rid f).
Proof. unfold is_fetch. apply _. Defined.

(** Modelled from the spec: call [rid] for [k] is no longer outstanding. *)
Definition answered (k : Key) (rid : RequestId) (x : Executor) : Executor :=
  {| store := store x;
     pending := filter (λ f, ¬ is_fetch k rid f) (pending x);
     nextRequestId := nextRequestId x; calls := calls x;
     notified := notified x |}.

(** Modelled from the spec: the network answers call [rid] for [k] with data.
    An answer to a call that is not outstanding changes nothing. *)
Definition fetchOk (k : Key) (rid : RequestId) (d : Data) (now : Z)
    (x : Executor) : Executor :=
  match head (filter (is_fetch k rid) (pending x)) with
  | None => x
  | Some _ => upsert k (to_success d now) (answered k rid x)
  end.

(** Modelled from the spec: the retry policy of section 4.3.  A failed
    attempt is retried "up to [N] times ... with the same request identity";
    "only after exhausting retries does the entry transition to [error] and
    notify observers.  Retries do not reset [inFlightRequestId]." *)
Definition fetchFail (k : Key) (rid : RequestId) (err : Err) (x : Executor)
    : Executor :=
  match head (filter (is_fetch k rid) (pending x)) with
  | None => x
  | Some f =>
      let x1 := answered k rid x in
      if decide (f_failures f < retryCount (entry k x))%nat then
        {| store := store x1;
           pending := pending x1 ++
             [{| f_key := k; f_id := rid; f_failures := S (f_failures f) |}];
           nextRequestId := nextRequestId x1;
           calls := calls x1 ++ [(k, rid)];
           notified := notified x1 |}
      else upsert k (to_error err) x1
  end.

(** Modelled from the spec: [invalidate(keyOrPrefix)] (section 6), which
    "marks matching entries stale, triggering refetch for any entry with
    active observers"; an entry that is already being fetched is not fetched
    twice. *)
Definition invalidateKey (k : Key) (x : Executor) : Executor :=
  let x1 := upsert k with_invalidated x in
  if decide (0 < observerCount (entry k x1))%nat then
    match inFlightRequestId (entry k x1) with
    | Some _ => x1
    | None => startFetch k x1
    end
  else x1.

Definition invalidate (prefix : Key) (x : Executor) : Executor :=
  foldr invalidateKey x (findByPrefix prefix x).

(** Modelled from the spec: [subscribe] and [unsubscribe] (section 4.5), which
    increment and decrement [observerCount]. *)
Definition setObservers (k : Key) (f : nat → nat) (x : Executor) : Executor :=
  {| store := <[k := with_observers (f (observerCount (entry k x))) (entry k x)]>
                (store x);
     pending := pending x; nextRequestId := nextRequestId x;
     calls := calls x; notified := notified x |}.

Definition subscribe (k : Key) (x : Executor) : Executor := setObservers k S x.
Definition unsubscribe (k : Key) (x : Executor) : Executor := setObservers k pred x.

(** Modelled from the spec: what can happen to an executor, one event at a
    time (section 5: a single thread of control, suspended only while a
    network call is awaited). *)
Inductive Event :=
| Query (k : Key) (o : Options) (now : Z)
| FetchOk (k : Key) (rid : RequestId) (d : Data) (now : Z)
| FetchFail (k : Key) (rid : RequestId) (err : Err)
| Invalidate (prefix : Key)
| Subscribe (k : Key)
| Unsubscribe (k : Key).

Definition step (x : Executor) (ev : Event) : Executor :=
  match ev with
  | Query k o now => (query k o now x).1
  | FetchOk k rid d now => fetchOk k rid d now x
  | FetchFail k rid err => fetchFail k rid err x
  | Invalidate prefix => invalidate prefix x
  | Subscribe k => subscribe k x
  | Unsubscribe k => unsubscribe k x
  end.

Definition run (x : Executor) (evs : list Event) : Executor := foldl step x evs.

(** The network calls issued for [k] so far. *)
Definition callsFor (k : Key) (x : Executor) : list (Key * RequestId) :=
  filter (λ c, c.1 = k) (calls x).

(** The fetches of [k] that are in flight. *)
Definition inFlight (k : Key) (x : Executor) : list Fetch :=
  filter (λ f, f_key f = k) (pending x).

(** The executor's bookkeeping is consistent: the outstanding network calls
    are for distinct keys, each is the one that its key's entry names as in
    flight, and every entry that names a request in flight has that call
    outstanding. *)
Record consistent (x : Executor) : Prop := {
  pending_distinct : NoDup (f_key <$> pending x);
  pending_named : ∀ f, f ∈ pending x →
    inFlightRequestId (entry (f_key f) x) = Some (f_id f);
  named_pending : ∀ k rid, inFlightRequestId (entry k x) = Some rid →
    ∃ f, f ∈ pending x ∧ f_key f = k ∧ f_id f = rid
}.

(** The first of two [query] calls has to go to the network: no fetch is in
    flight for the key and, under the call's options, the entry is stale or
    new. *)
Definition needsFetch (k : Key) (o : Options) (now : Z) (x : Executor) : bool :=
  match inFlightRequestId (entry k x) with
  | Some _ => false
  | None => stale now (with_options o (entry k x))
  end.




End Cache.

Arguments CacheEntry : clear implicits.
Arguments Executor : clear implicits.
Arguments QueryResult : clear implicits.
Arguments Event : clear implicits.

(** The scenarios of the specification, with data and errors as text. *)
Definition users_posts : Key := [SegStr "users"; SegNum 7; SegStr "posts"].

(** A cache in which ["todos"] was fetched at time 0 and answered at 10. *)
Definition todos_cached : Executor string string :=
  run init [Query CACHE_KEY_TODOS useTodosOptions 0;
            FetchOk CACHE_KEY_TODOS 0%nat "todos" 10].

(** A cache in which [["users", 7, "posts"]] has a subscriber and is being
    fetched for the first time. *)
Definition posts_fetching : Executor string string :=
  run init [Query users_posts useTodosOptions 0; Subscribe users_posts].

(** A cache in which [["users", 7, "posts"]] is cached and has a subscriber. *)
Definition posts_observed : Executor string string :=
  run init [Query users_posts useTodosOptions 0;
            FetchOk users_posts 0%nat "posts" 5;
            Subscribe users_posts].

End QueryCache.

(* ===================================================================== *)
(** * The counter reducer and the Counter component *)
(* ===================================================================== *)

Module CounterReducer.

(** [interface Action { type: "INCREMENT" | "RESET" }]; [Unlisted] is an
    action object whose [type] is neither, which the final [return state] of
    the reducer answers. *)
Inductive Action := Increment | Reset | Unlisted.

#[global] Instance Action_eq_dec : EqDecision Action.
Proof. solve_decision. Defined.

(** counterReducer.ts, lines 12-16:
<<
if (action.type === "INCREMENT") return state + 1;
if (action.type === "RESET") return 0;
return state;
>>
    The state is an integer, and [state + 1] is the program's sum wherever
    that is exact: for integers of magnitude at most 2^53. *)
Definition counterReducer (state : Z) (action : Action) : Z :=
  match action with
  | Increment => state + 1
  | Reset => 0
  | Unlisted => state
  end.

(** [useReducer(counterReducer, 0)]: the state after the actions dispatched,
    in order. *)
Definition dispatched (state : Z) (actions : list Action) : Z :=
  foldl counterReducer state actions.

(** Counter.tsx: the two buttons.  Each [onClick] once dispatched an action
    (the line is still there, commented out) and now calls the store. *)
Inductive Button := IncrementButton | ResetButton.

(** [// onClick={() => dispatch({ type: "INCREMENT" })}] and
    [// onClick={() => dispatch({ type: "RESET" })}] *)
Definition dispatches (b : Button) : Action :=
  match b with
  | IncrementButton => Increment
  | ResetButton => Reset
  end.

(** [onClick={() => increament()}] and [onClick={() => reset()}] *)
Definition calls (b : Button) : Counter.CounterStore → Counter.Partial :=
  match b with
  | IncrementButton => Counter.increament
  | ResetButton => Counter.reset
  end.

(** The store after the buttons clicked, in order; nobody is subscribed. *)
Definition clicked (s : Counter.CounterStore) (buttons : list Button)
    : Counter.CounterStore :=
  foldl (λ s b, (Counter.set [] s (calls b)).1) s buttons.

End CounterReducer.

(* ===================================================================== *)
(** * The LoginStatus component *)
(* ===================================================================== *)

Module LoginStatus.
Import Auth.

(** The two things the component renders: the user's name with a Logout
    link, or a Login link. *)
Inductive View := LoggedIn (user : string) | LoggedOut.

(** LoginStatus, [if (user) return ...; return ...]: a string is truthy
    unless it is empty. *)
Definition LoginStatus (user : string) : View :=
  if decide (user = "") then LoggedOut else LoggedIn user.

(** The link's [onClick]: [dispatch({ type: "LOGOUT" })] in the first view,
    [dispatch({ type: "LOGIN", user: "mosh.hamedani" })] in the second. *)
Definition onClick (user : string) : LogAction :=
  match LoginStatus user with
  | LoggedIn _ => LogOut
  | LoggedOut => LogIn "mosh.hamedani"
  end.

(** [const [user, dispatch] = useReducer(AuthReducer, "")]: the state after a
    click on the link, and after [n] of them. *)
Definition click (user : string) : string := AuthReducer user (onClick user).

Definition clicks (n : nat) : string := Nat.iter n click "".

End LoginStatus.

(* ===================================================================== *)
(** * Posts: pages and query keys *)
(* ===================================================================== *)

Module Posts.
Import KeyCodec.

(** [interface PostQuery { pageSize: number }] *)
Record PostQuery := { pageSize : Z }.

(** The query string parameters that [fetchPosts] sends. *)
Record Params := { _start : Z; _limit : Z }.

(** usePosts, [fetchPosts = ({ pageParam = 1 }) => ...]:
<<
  params: {
    _start: (pageParam - 1) * query.pageSize,
    _limit: query.pageSize,
  },
>>
    [pageParam] is [undefined] on the first fetch. *)
Definition fetchParams (query : PostQuery) (pageParam : option Z) : Params :=
  let pageParam := default 1 pageParam in
  {| _start := (pageParam - 1) * pageSize query; _limit := pageSize query |}.

Section Loading.
Context {Post : Type}.

(** usePosts, [getNextPageParam]:
<<
  return lastPage.length > 0 ? allPages.length + 1 : undefined;
>> *)
Definition getNextPageParam (lastPage : list Post) (allPages : list (list Post))
    : option Z :=
  if decide (0 < length lastPage)%nat
  then Some (Z.of_nat (length allPages) + 1)
  else None.

(** The [i]-th window of [size] posts, counting from zero. *)
Definition window (size : nat) (posts : list Post) (i : nat) : list Post :=
  take size (drop (i * size) posts).

(** The backend, as a function from the parameters sent to the posts
    answered ([.then((res) => res.data)]). *)
Variable server : Params → list Post.

Definition fetchPosts (query : PostQuery) (pageParam : option Z) : list Post :=
  server (fetchParams query pageParam).

(** [data.pages] after the first fetch. *)
Definition firstFetch (query : PostQuery) : list (list Post) :=
  [fetchPosts query None].

(** [fetchNextPage()], the Load More button.  As the notes have it, "react
    query will call [getNextPageParam] to get the next page number, then it
    will pass the next number to the query function"; [undefined] "will
    indicate that you reached the end of the list", and nothing is fetched. *)
Definition fetchNextPage (query : PostQuery) (pages : list (list Post))
    : list (list Post) :=
  match last pages with
  | None => pages
  | Some lastPage =>
      match getNextPageParam lastPage pages with
      | None => pages
      | Some pageParam => pages ++ [fetchPosts query (Some pageParam)]
      end
  end.

(** [data.pages] after the first fetch and [n] clicks on Load More. *)
Definition loadMore (query : PostQuery) (n : nat) : list (list Post) :=
  Nat.iter n (fetchNextPage query) (firstFetch query).

(** A backend that holds [posts] and answers the window asked for, as the
    one of the source does: "if we ask data for a page that doesn't exist, we
    get an empty array". *)
Definition serves (posts : list Post) : Prop :=
  ∀ p, 0 ≤ _start p → 0 ≤ _limit p →
    server p = take (Z.to_nat (_limit p)) (drop (Z.to_nat (_start p)) posts).

End Loading.

(** usePosts of the notes, by user:
<<
  queryKey: userId ? ["users", userId, "posts"] : ["posts"],
>>
    [userId] is a number or [undefined]; of the numbers, zero is falsy. *)
Definition postsKey (userId : option Z) : Key :=
  match userId with
  | Some n => if decide (n = 0) then [SegStr "posts"]
              else [SegStr "users"; SegNum n; SegStr "posts"]
  | None => [SegStr "posts"]
  end.

End Posts.

(* ===================================================================== *)
(** * Posts, one page at a time *)
(* ===================================================================== *)

Module PagedPosts.

(** [interface PostQuery { page: number; pageSize: number }] *)
Record PostQuery := { page : Z; pageSize : Z }.

(** usePosts of the notes, paginated:
<<
  _start: (query.page - 1) * query.pageSize,
  _limit: query.pageSize,
>> *)
Definition fetchParams (query : PostQuery) : Posts.Params :=
  {| Posts._start := (page query - 1) * pageSize query;
     Posts._limit := pageSize query |}.

(** PostList of the notes: [const [page, setPage] = useState(1)] and the two
    buttons, [Previous] with [disabled={page === 1}]. *)
Inductive Button := Previous | Next.

Definition disabled (page : Z) (b : Button) : bool :=
  match b with
  | Previous => bool_decide (page = 1)
  | Next => false
  end.

(** [onClick={() => setPage(page - 1)}] and [onClick={() => setPage(page + 1)}] *)
Definition onClick (page : Z) (b : Button) : Z :=
  match b with
  | Previous => page - 1
  | Next => page + 1
  end.

(** A click on a disabled button does nothing. *)
Definition click (page : Z) (b : Button) : Z :=
  if disabled page b then page else onClick page b.

(** The page shown after the clicks, from [useState(1)]. *)
Definition clicked (buttons : list Button) : Z := foldl click 1 buttons.

End PagedPosts.

(* ===================================================================== *)
(** * Properties of the reducers *)
(* ===================================================================== *)

Section TasksFacts.
Import Tasks.

Lemma alloc_fresh (h : gmap loc (list Task)) v :
  h !! (alloc h v).2 = None.
Proof.
  unfold alloc; simpl. apply not_elem_of_dom. apply is_fresh.
Qed.

Lemma alloc_lookup (h : gmap loc (list Task)) v :
  (alloc h v).1 !! (alloc h v).2 = Some v.
Proof. unfold alloc; simpl. apply lookup_insert_eq. Qed.

Lemma alloc_subseteq (h : gmap loc (list Task)) v :
  h ⊆ (alloc h v).1.
Proof.
  unfold alloc; simpl. apply insert_subseteq.
  apply not_elem_of_dom, is_fresh.
Qed.

(** What one call does to the heap: it answers a reference to an array with
    the contents that [taskReducer] computes; every array that existed, the
    operand among them, still has the contents it had; and the answer is a
    new array for ["ADD"] and ["DELETE"], the operand itself otherwise, in
    which case the heap is the one the call started from. *)
Lemma taskReducer_run_spec (h : gmap loc (list Task)) tasks ts action :
  h !! tasks = Some ts →
  ∃ h' r,
    taskReducer_run h tasks action = Some (h', r)
    ∧ h' !! r = Some (taskReducer ts action)
    ∧ h ⊆ h'
    ∧ match action with
      | AddTask _ | DeleteTask _ => h !! r = None ∧ h' = <[r := taskReducer ts action]> h
      | Unlisted => r = tasks ∧ h' = h
      end.
Proof.
  intros Hts. unfold taskReducer_run. rewrite Hts.
  destruct action as [t | n |].
  - exists (alloc h (taskReducer ts (AddTask t))).1,
           (alloc h (taskReducer ts (AddTask t))).2.
    split; [reflexivity|].
    split; [apply alloc_lookup|]. split; [apply alloc_subseteq|].
    split; [apply alloc_fresh | reflexivity].
  - exists (alloc h (taskReducer ts (DeleteTask n))).1,
           (alloc h (taskReducer ts (DeleteTask n))).2.
    split; [reflexivity|].
    split; [apply alloc_lookup|]. split; [apply alloc_subseteq|].
    split; [apply alloc_fresh | reflexivity].
  - exists h, tasks. simpl. auto.
Qed.

(** C8.  [taskReducer] is a pure, deterministic transition function.  Two
    runs, in whatever heaps, on arrays with equal contents and with equal
    actions answer arrays with equal contents, which are those that
    [taskReducer] gives: the task in front of the list for ["ADD"], the list
    without the tasks of that id for ["DELETE"], the list itself otherwise.
    A run has no effect but the allocation of its answer: the operand and
    every other array keep their contents, ["ADD"] and ["DELETE"] answer a new
    array, any other action answers the operand and leaves the heap as it
    was. *)
Theorem taskReducer_pure_deterministic
    (h1 h2 : gmap loc (list Task)) (tasks1 tasks2 : loc) ts action :
  h1 !! tasks1 = Some ts →
  h2 !! tasks2 = Some ts →
  ∃ h1' r1 h2' r2 result,
    taskReducer_run h1 tasks1 action = Some (h1', r1)
    ∧ taskReducer_run h2 tasks2 action = Some (h2', r2)
    ∧ h1' !! r1 = Some result ∧ h2' !! r2 = Some result
    ∧ result = match action with
               | AddTask task => task :: ts
               | DeleteTask taskId => filter (λ task, taskId ≠ id task) ts
               | Unlisted => ts
               end
    ∧ h1 ⊆ h1' ∧ h1' !! tasks1 = Some ts
    ∧ match action with
      | AddTask _ | DeleteTask _ => h1 !! r1 = None ∧ h1' = <[r1 := result]> h1
      | Unlisted => r1 = tasks1 ∧ h1' = h1
      end.
Proof.
  intros H1 H2.
  destruct (taskReducer_run_spec h1 tasks1 ts action H1) as (h1' & r1 & E1 & L1 & S1 & K1).
  destruct (taskReducer_run_spec h2 tasks2 ts action H2) as (h2' & r2 & E2 & L2 & _ & _).
  exists h1', r1, h2', r2, (taskReducer ts action).
  split_and!; try assumption.
  - by destruct action.
  - by eapply lookup_weaken.
Qed.

Lemma taskReducer_pure_deterministic_witness :
  ∃ h1' r1 h2' r2,
    taskReducer_run {[ 1%positive := [ {| id := 7; title := "a" |} ] ]} 1%positive
      (DeleteTask 7) = Some (h1', r1)
    ∧ taskReducer_run {[ 5%positive := [ {| id := 7; title := "a" |} ] ]} 5%positive
      (DeleteTask 7) = Some (h2', r2)
    ∧ h1' !! r1 = Some [] ∧ h2' !! r2 = Some []
    ∧ h1' !! 1%positive = Some [ {| id := 7; title := "a" |} ].
Proof.
  destruct (taskReducer_pure_deterministic
              {[ 1%positive := [ {| id := 7; title := "a" |} ] ]}
              {[ 5%positive := [ {| id := 7; title := "a" |} ] ]}
              1%positive 5%positive [ {| id := 7; title := "a" |} ] (DeleteTask 7))
    as (h1' & r1 & h2' & r2 & result & E1 & E2 & L1 & L2 & R & _ & T & _).
  - reflexivity.
  - reflexivity.
  - exists h1', r1, h2', r2.
    assert (result = []) as -> by (rewrite R; vm_compute; reflexivity).
    auto.
Defined.

Lemma filter_fresh_id (ts : list Task) n :
  (∀ u, u ∈ ts → id u ≠ n) → filter (λ task, n ≠ id task) ts = ts.
Proof.
  induction ts as [|u ts IH]; intros Hfresh; [reflexivity|].
  rewrite filter_cons_True.
  - f_equal. apply IH. intros v Hv. apply Hfresh. by right.
  - intros E. apply (Hfresh u); [by left | done].
Qed.

(** C9.  For every task list [ts] and every task [t] whose id does not occur
    in [ts], ["ADD"] of [t] followed by ["DELETE"] of [t]'s id gives back
    [ts]. *)
Theorem taskReducer_add_delete (ts : list Task) (t : Task) :
  (∀ u, u ∈ ts → id u ≠ id t) →
  taskReducer (taskReducer ts (AddTask t)) (DeleteTask (id t)) = ts.
Proof.
  intros Hfresh. simpl.
  rewrite filter_cons_False by (intros E; by apply E).
  by apply filter_fresh_id.
Qed.

Lemma taskReducer_add_delete_witness :
  taskReducer
    (taskReducer [ {| id := 1; title := "one" |}; {| id := 2; title := "two" |} ]
       (AddTask {| id := 3; title := "three" |}))
    (DeleteTask 3)
  = [ {| id := 1; title := "one" |}; {| id := 2; title := "two" |} ].
Proof.
  apply (taskReducer_add_delete
           [ {| id := 1; title := "one" |}; {| id := 2; title := "two" |} ]
           {| id := 3; title := "three" |}).
  intros u Hu. simpl.
  apply list_elem_of_In in Hu. simpl in Hu.
  destruct Hu as [<- | [<- | []]]; simpl; lia.
Defined.

(** Without freshness the round trip loses the tasks that share the id. *)
Example taskReducer_add_delete_shared_id :
  taskReducer
    (taskReducer [ {| id := 3; title := "old" |} ] (AddTask {| id := 3; title := "new" |}))
    (DeleteTask 3) = [].
Proof. reflexivity. Qed.

End TasksFacts.

Section AuthFacts.
Import Auth.

(** C10.  [AuthReducer(s, a)] does not depend on [s]: it is [a.user] for a
    ["LOGIN"] action and the empty string for every other action, so an action
    that is neither ["LOGIN"] nor ["LOGOUT"] logs the user out. *)
Theorem AuthReducer_ignores_state (s s' : string) (a : LogAction) :
  AuthReducer s a = AuthReducer s' a
  ∧ AuthReducer s a = match a with LogIn user => user | _ => "" end
  ∧ AuthReducer s Unlisted = "".
Proof. by destruct a. Qed.

Example AuthReducer_unlisted_logs_out :
  AuthReducer "mosh.hamedani" Unlisted = "".
Proof. reflexivity. Qed.

End AuthFacts.

(* ===================================================================== *)
(** * Properties of the optimistic mutation *)
(* ===================================================================== *)

Section AddTodoFacts.
Import KeyCodec AddTodo.

Lemma onMutate_data (c : QueryData) newTodo :
  getQueryData (onMutate c newTodo).1 CACHE_KEY_TODOS
  = Some (newTodo :: default [] (getQueryData c CACHE_KEY_TODOS)).
Proof.
  unfold onMutate, setQueryDataWith, setQueryData, getQueryData; simpl.
  apply lookup_insert_eq.
Qed.

Lemma onMutate_context (c : QueryData) newTodo :
  prvsTodos (onMutate c newTodo).2 = default [] (getQueryData c CACHE_KEY_TODOS).
Proof. reflexivity. Qed.

Lemma onMutate_other (c : QueryData) newTodo k :
  k ≠ CACHE_KEY_TODOS →
  getQueryData (onMutate c newTodo).1 k = getQueryData c k.
Proof.
  intros Hk. unfold onMutate, setQueryDataWith, setQueryData, getQueryData; simpl.
  by apply lookup_insert_ne.
Qed.

Lemma onError_data (c : QueryData) ctx :
  getQueryData (onError c (Some ctx)) CACHE_KEY_TODOS = Some (prvsTodos ctx).
Proof. unfold onError, setQueryData, getQueryData. apply lookup_insert_eq. Qed.

Lemma onError_other (c : QueryData) ctx k :
  k ≠ CACHE_KEY_TODOS → getQueryData (onError c ctx) k = getQueryData c k.
Proof.
  intros Hk. destruct ctx as [ctx|]; [|reflexivity].
  unfold onError, setQueryData, getQueryData. by apply lookup_insert_ne.
Qed.

Lemma mutate_failed (between : QueryData → QueryData) (c : QueryData)
    (newTodo : ref) (error : string) :
  getQueryData (mutate between c newTodo (Failed error)).1 CACHE_KEY_TODOS
    = Some (default [] (getQueryData c CACHE_KEY_TODOS))
  ∧ (mutate between c newTodo (Failed error)).2 = Some error
  ∧ ∀ k, k ≠ CACHE_KEY_TODOS →
      getQueryData (mutate between c newTodo (Failed error)).1 k
      = getQueryData (between (onMutate c newTodo).1) k.
Proof.
  unfold mutate. destruct (onMutate c newTodo) as [c1 ctx] eqn:E.
  assert (prvsTodos ctx = default [] (getQueryData c CACHE_KEY_TODOS)) as Hctx.
  { by rewrite <- (onMutate_context c newTodo), E. }
  cbn [fst snd]. split_and!.
  - by rewrite onError_data, Hctx.
  - reflexivity.
  - intros k Hk. by apply onError_other.
Qed.

(** C1, as amended.  When a mutation fails, whatever happened to the cache
    while the request was awaited, the error handler leaves under
    [["todos"]] exactly the snapshot that [onMutate] captured: the list that
    was there before the optimistic write when there was one, and the empty
    list when the entry was absent.  No other key is written, and the caller
    receives the error. *)
Theorem rollback_restores_snapshot
    (between : QueryData → QueryData) (c : QueryData) (newTodo : ref)
    (error : string) :
  getQueryData (mutate between c newTodo (Failed error)).1 CACHE_KEY_TODOS
    = match getQueryData c CACHE_KEY_TODOS with
      | Some todos => Some todos
      | None => Some []
      end
  ∧ (mutate between c newTodo (Failed error)).2 = Some error
  ∧ ∀ k, k ≠ CACHE_KEY_TODOS →
      getQueryData (mutate between c newTodo (Failed error)).1 k
      = getQueryData (between (onMutate c newTodo).1) k.
Proof.
  destruct (mutate_failed between c newTodo error) as (H1 & H2 & H3).
  split_and!; [|done..].
  rewrite H1. by destruct (getQueryData c CACHE_KEY_TODOS).
Qed.

(** C1, as stated, fails where the entry was absent: the rollback leaves an
    empty list under the key, not an absent entry. *)
Lemma rollback_absent_entry_counterexample :
  getQueryData (∅ : QueryData) CACHE_KEY_TODOS = None
  ∧ getQueryData (mutate Datatypes.id ∅ 1%positive (Failed "Network Error")).1 CACHE_KEY_TODOS
    = Some []
  ∧ ¬ (∀ (c : QueryData) (newTodo : ref) (error : string),
         getQueryData (mutate Datatypes.id c newTodo (Failed error)).1 CACHE_KEY_TODOS
         = getQueryData c CACHE_KEY_TODOS).
Proof.
  assert (getQueryData (∅ : QueryData) CACHE_KEY_TODOS = None) as H0
    by apply lookup_empty.
  assert (getQueryData (mutate Datatypes.id ∅ 1%positive (Failed "Network Error")).1
            CACHE_KEY_TODOS = Some []) as H1.
  { destruct (mutate_failed Datatypes.id ∅ 1%positive "Network Error") as [-> _].
    by rewrite H0. }
  split_and!; [done | done |].
  intros H. specialize (H ∅ 1%positive "Network Error").
  rewrite H1, H0 in H. discriminate.
Qed.

(** X17.  A run of failing mutations, each finished before the next begins,
    leaves the list that was there at the start (the empty list if there was
    none). *)
Lemma failing_restores (c : QueryData) newTodos error :
  newTodos ≠ [] →
  getQueryData (failing c newTodos error) CACHE_KEY_TODOS
  = Some (default [] (getQueryData c CACHE_KEY_TODOS)).
Proof.
  unfold failing. revert c.
  induction newTodos as [|n ns IH]; intros c Hne; [done|]. cbn [foldl].
  destruct (mutate_failed Datatypes.id c n error) as [Hn _].
  destruct ns as [|n' ns'].
  - cbn [foldl]. by rewrite Hn.
  - rewrite IH by done. by rewrite Hn.
Qed.

Lemma onSuccess_data (c : QueryData) savedTodo newTodo :
  getQueryData (onSuccess c savedTodo newTodo) CACHE_KEY_TODOS
  = swap savedTodo newTodo <$> getQueryData c CACHE_KEY_TODOS.
Proof.
  unfold onSuccess, setQueryDataWith, setQueryData, getQueryData.
  destruct (c !! CACHE_KEY_TODOS) as [l|] eqn:E; simpl.
  - apply lookup_insert_eq.
  - by rewrite E.
Qed.

End AddTodoFacts.

(* ===================================================================== *)
(** * Properties of selector subscriptions *)
(* ===================================================================== *)

Section CounterFacts.
Import Counter.

Lemma set_flags (subscribers : list Subscriber) s f i sub :
  subscribers !! i = Some sub →
  (set subscribers s f).2 !! i = Some (notifies sub s (set subscribers s f).1).
Proof.
  intros Hi. unfold set; cbn [fst snd].
  by rewrite list_lookup_fmap, Hi.
Qed.

Lemma merge_keeps_counter s p :
  set_counter p = None → counter (merge s p) = counter s.
Proof. intros H. unfold merge; simpl. by rewrite H. Qed.

(** C4.  On a store update, a subscriber without selector is notified
    whatever the update; a subscriber with a selector is notified if and only
    if the selected value of the new state differs from that of the previous
    state; hence a subscriber that selects [counter] is not notified by an
    update that leaves [counter] as it was, such as one that sets only [max]. *)
Theorem selector_notified_iff_changed
    (subscribers : list Subscriber) (s : CounterStore)
    (f : CounterStore → Partial) (i : nat) :
  (subscribers !! i = Some whole_store →
     (set subscribers s f).2 !! i = Some true)
  ∧ (∀ A eqA selector,
       subscribers !! i = Some (Selecting A eqA selector) →
       ((set subscribers s f).2 !! i = Some true
          ↔ selector (set subscribers s f).1 ≠ selector s)
       ∧ ((set subscribers s f).2 !! i = Some false
          ↔ selector (set subscribers s f).1 = selector s))
  ∧ (subscribers !! i = Some select_counter →
     set_counter (f s) = None →
     (set subscribers s f).2 !! i = Some false).
Proof.
  split_and!.
  - intros Hi. by rewrite (set_flags _ _ _ _ _ Hi).
  - intros A eqA selector Hi. rewrite (set_flags _ _ _ _ _ Hi).
    cbn [notifies]. split.
    + split.
      * intros [= H]. by apply bool_decide_eq_true in H.
      * intros H. f_equal. by apply bool_decide_eq_true.
    + split.
      * intros [= H]. apply bool_decide_eq_false in H.
        by destruct (decide (selector (set subscribers s f).1 = selector s)).
      * intros H. f_equal. apply bool_decide_eq_false. by intros ?.
  - intros Hi Hf. rewrite (set_flags _ _ _ _ _ Hi).
    cbn [notifies select_counter]. f_equal. apply bool_decide_eq_false.
    intros H. apply H. unfold set; cbn [fst]. by apply merge_keeps_counter.
Qed.

(** The notes' demonstration: NavBar without selector and NavBar selecting
    [counter], when [reset] sets [max] to 10. *)
Lemma selector_notified_iff_changed_witness :
  (set [whole_store; select_counter] initial reset_max).1
    = {| counter := 0; max := 10 |}
  ∧ (set [whole_store; select_counter] initial reset_max).2 !! 0%nat = Some true
  ∧ (set [whole_store; select_counter] initial reset_max).2 !! 1%nat = Some false.
Proof.
  split; [reflexivity|]. split.
  - apply (selector_notified_iff_changed
             [whole_store; select_counter] initial reset_max 0). reflexivity.
  - apply (selector_notified_iff_changed
             [whole_store; select_counter] initial reset_max 1); reflexivity.
Defined.

Example increament_notifies_both :
  set [whole_store; select_counter; select_max] initial increament
  = ({| counter := 1; max := 5 |}, [true; true; false]).
Proof. reflexivity. Qed.

Example reset_notifies_plain_only :
  set [whole_store; select_counter]
      {| counter := 0; max := 5 |} reset
  = ({| counter := 0; max := 5 |}, [true; false]).
Proof. reflexivity. Qed.

End CounterFacts.

(* ===================================================================== *)
(** * Properties of the query cache *)
(* ===================================================================== *)

Section QueryCacheFacts.
Import KeyCodec QueryCache.
Context {Data Err : Type}.
Implicit Types (x : Executor Data Err) (e : CacheEntry Data Err) (k : Key).

Lemma filter_none {A} (P : A → Prop) `{∀ a, Decision (P a)} (l : list A) :
  (∀ a, a ∈ l → ¬ P a) → filter P l = [].
Proof.
  induction l as [|a l IH]; intros Hl; [done|].
  rewrite filter_cons_False by (apply Hl; left).
  apply IH. intros b Hb. apply Hl. by right.
Qed.

(** ** The store after each operation *)

Lemma entry_lookup x k e : store x !! k = Some e → entry k x = e.
Proof. unfold entry. by intros ->. Qed.

Lemma entry_upsert x k patch : entry k (upsert k patch x) = patch (entry k x).
Proof. unfold entry at 1, upsert; cbn [store]. by rewrite lookup_insert_eq. Qed.

Lemma entry_upsert_ne x k k' patch :
  k' ≠ k → entry k' (upsert k patch x) = entry k' x.
Proof.
  intros Hne. unfold entry, upsert; cbn [store]. by rewrite lookup_insert_ne.
Qed.

Lemma entry_startFetch x k :
  entry k (startFetch k x) = to_loading (nextRequestId x) (entry k x).
Proof. unfold startFetch. unfold entry at 1; cbn [store]. apply entry_upsert. Qed.

Lemma entry_startFetch_ne x k k' :
  k' ≠ k → entry k' (startFetch k x) = entry k' x.
Proof.
  intros Hne. unfold startFetch. unfold entry at 1; cbn [store].
  by apply entry_upsert_ne.
Qed.

Lemma entry_answered x k k' rid : entry k' (answered k rid x) = entry k' x.
Proof. reflexivity. Qed.

Lemma entry_setObservers x k f :
  entry k (setObservers k f x)
  = with_observers (f (observerCount (entry k x))) (entry k x).
Proof. unfold entry at 1, setObservers; cbn [store]. by rewrite lookup_insert_eq. Qed.

Lemma entry_setObservers_ne x k k' f :
  k' ≠ k → entry k' (setObservers k f x) = entry k' x.
Proof.
  intros Hne. unfold entry, setObservers; cbn [store]. by rewrite lookup_insert_ne.
Qed.

(** ** Consistency is kept by every operation *)

Lemma consistent_init : consistent (@init Data Err).
Proof.
  split; cbn.
  - constructor.
  - intros f Hf. by apply elem_of_nil in Hf.
  - intros k rid. unfold entry, init; cbn. by rewrite lookup_empty.
Qed.

Lemma consistent_upsert x k patch :
  (∀ e, inFlightRequestId (patch e) = inFlightRequestId e) →
  consistent x → consistent (upsert k patch x).
Proof.
  intros Hpatch [Hd Hn Hp]. split; cbn [pending upsert].
  - exact Hd.
  - intros f Hf. destruct (decide (f_key f = k)) as [<-|Hne].
    + rewrite entry_upsert, Hpatch. by apply Hn.
    + rewrite entry_upsert_ne by done. by apply Hn.
  - intros k' rid. destruct (decide (k' = k)) as [->|Hne].
    + rewrite entry_upsert, Hpatch. apply Hp.
    + rewrite entry_upsert_ne by done. apply Hp.
Qed.

Lemma not_pending_if_idle x k :
  consistent x → inFlightRequestId (entry k x) = None →
  k ∉ f_key <$> pending x.
Proof.
  intros [_ Hn _] Hnone Hin.
  apply list_elem_of_fmap in Hin as (f & -> & Hf).
  apply Hn in Hf. congruence.
Qed.

Lemma consistent_startFetch x k :
  inFlightRequestId (entry k x) = None →
  consistent x → consistent (startFetch k x).
Proof.
  intros Hnone Hc. pose proof (not_pending_if_idle x k Hc Hnone) as Hk.
  destruct Hc as [Hd Hn Hp]. split.
  - unfold startFetch; cbn [pending upsert]. rewrite fmap_app; cbn.
    apply NoDup_app. split_and!; [done | | apply NoDup_singleton].
    intros k' Hk' Hin. apply list_elem_of_singleton in Hin as ->. done.
  - intros f Hf. unfold startFetch in Hf; cbn [pending upsert] in Hf.
    apply elem_of_app in Hf as [Hf | Hf].
    + assert (f_key f ≠ k) as Hne.
      { intros <-. apply Hk. apply list_elem_of_fmap. eauto. }
      rewrite entry_startFetch_ne by done. by apply Hn.
    + apply list_elem_of_singleton in Hf as ->. cbn [f_key f_id].
      by rewrite entry_startFetch.
  - intros k' rid. destruct (decide (k' = k)) as [->|Hne].
    + rewrite entry_startFetch; cbn [inFlightRequestId to_loading].
      intros [= <-].
      exists {| f_key := k; f_id := nextRequestId x; f_failures := 0 |}.
      split; [|split; reflexivity].
      unfold startFetch; cbn [pending]. apply elem_of_app. right.
      by apply list_elem_of_singleton.
    + rewrite entry_startFetch_ne by done. intros H.
      destruct (Hp _ _ H) as (f & Hf & Hk' & Hrid).
      exists f. split_and!; try done.
      unfold startFetch; cbn [pending upsert]. apply elem_of_app. by left.
Qed.

Lemma consistent_ext x y :
  store x = store y → pending x = pending y → consistent x → consistent y.
Proof.
  intros Hs Hp [Hd Hn Hi].
  assert (∀ k, entry k y = entry k x) as He
    by (intros k; unfold entry; by rewrite Hs).
  split.
  - by rewrite <- Hp.
  - intros f Hf. rewrite He. apply Hn. by rewrite Hp.
  - intros k rid. rewrite He, <- Hp. apply Hi.
Qed.

Lemma found_fetch x k rid f :
  head (filter (is_fetch k rid) (pending x)) = Some f →
  f ∈ pending x ∧ f_key f = k ∧ f_id f = rid.
Proof.
  intros H%head_Some_elem_of. apply list_elem_of_filter in H as [[? ?] ?]. done.
Qed.

Lemma found_fetch_head x k rid f :
  consistent x → f ∈ pending x → f_key f = k → f_id f = rid →
  ∃ g, head (filter (is_fetch k rid) (pending x)) = Some g
       ∧ g ∈ pending x ∧ f_key g = k ∧ f_id g = rid.
Proof.
  intros _ Hf Hk Hrid.
  destruct (head (filter (is_fetch k rid) (pending x))) as [g|] eqn:E.
  - exists g. split; [done|]. by apply found_fetch.
  - exfalso. apply head_None in E.
    eapply (filter_nil_not_elem_of (is_fetch k rid)); [exact E | | exact Hf].
    by split.
Qed.

Lemma answered_gone x k rid f :
  consistent x → f ∈ pending x → f_key f = k → f_id f = rid →
  k ∉ f_key <$> pending (answered k rid x).
Proof.
  intros [_ Hn _] Hf Hk Hrid Hin.
  apply list_elem_of_fmap in Hin as (g & Hgk & Hg).
  cbn [pending answered] in Hg. apply list_elem_of_filter in Hg as [Hnot Hg].
  apply Hnot. split; [done|].
  apply Hn in Hf. apply Hn in Hg. rewrite <- Hgk in Hg. rewrite Hk in Hf.
  rewrite Hf in Hg. congruence.
Qed.

Lemma answered_distinct x k rid :
  consistent x → NoDup (f_key <$> pending (answered k rid x)).
Proof.
  intros [Hd _ _]. cbn [pending answered].
  eapply sublist_NoDup; [exact Hd|]. apply fmap_sublist, sublist_filter.
Qed.

Lemma answered_other x k rid g :
  g ∈ pending x → f_key g ≠ k → g ∈ pending (answered k rid x).
Proof.
  intros Hg Hne. cbn [pending answered]. apply list_elem_of_filter.
  split; [|done]. by intros [? _].
Qed.

Lemma consistent_resolved x k rid f patch :
  (∀ e, inFlightRequestId (patch e) = None) →
  consistent x → f ∈ pending x → f_key f = k → f_id f = rid →
  consistent (upsert k patch (answered k rid x)).
Proof.
  intros Hpatch Hc Hf Hk Hrid.
  pose proof (answered_gone x k rid f Hc Hf Hk Hrid) as Hgone.
  pose proof (answered_distinct x k rid Hc) as Hdist.
  destruct Hc as [Hd Hn Hp]. split; cbn [pending upsert].
  - exact Hdist.
  - intros g Hg.
    assert (f_key g ≠ k) as Hne.
    { intros <-. apply Hgone. apply list_elem_of_fmap. eauto. }
    rewrite entry_upsert_ne, entry_answered by done. apply Hn.
    cbn [pending answered] in Hg. by apply list_elem_of_filter in Hg as [_ ?].
  - intros k' rid'. destruct (decide (k' = k)) as [->|Hne].
    + rewrite entry_upsert, Hpatch. done.
    + rewrite entry_upsert_ne, entry_answered by done. intros H.
      destruct (Hp _ _ H) as (g & Hg & Hgk & Hgr). exists g.
      split_and!; try done. apply answered_other; [done | congruence].
Qed.

Lemma consistent_retried x k rid f n :
  consistent x → f ∈ pending x → f_key f = k → f_id f = rid →
  consistent
    {| store := store (answered k rid x);
       pending := pending (answered k rid x) ++
                    [{| f_key := k; f_id := rid; f_failures := n |}];
       nextRequestId := nextRequestId (answered k rid x);
       calls := calls (answered k rid x) ++ [(k, rid)];
       notified := notified (answered k rid x) |}.
Proof.
  intros Hc Hf Hk Hrid.
  pose proof (answered_gone x k rid f Hc Hf Hk Hrid) as Hgone.
  pose proof (answered_distinct x k rid Hc) as Hdist.
  destruct Hc as [Hd Hn Hp].
  assert (inFlightRequestId (entry k x) = Some rid) as Hin.
  { rewrite <- Hk, <- Hrid. by apply Hn. }
  split; cbn [pending store].
  - rewrite fmap_app; cbn. apply NoDup_app.
    split_and!; [done | | apply NoDup_singleton].
    intros k' Hk' Hin'. apply list_elem_of_singleton in Hin' as ->. done.
  - intros g Hg. change (entry (f_key g) _) with (entry (f_key g) x).
    apply elem_of_app in Hg as [Hg | Hg].
    + apply Hn. cbn [pending answered] in Hg.
      by apply list_elem_of_filter in Hg as [_ ?].
    + apply list_elem_of_singleton in Hg as ->. done.
  - intros k' rid'. change (entry k' _) with (entry k' x). intros H.
    destruct (decide (k' = k)) as [->|Hne].
    + exists {| f_key := k; f_id := rid; f_failures := n |}.
      split_and!; [| done | cbn; congruence].
      apply elem_of_app. right. by apply list_elem_of_singleton.
    + destruct (Hp _ _ H) as (g & Hg & Hgk & Hgr). exists g.
      split_and!; try done. apply elem_of_app. left.
      apply answered_other; [done | congruence].
Qed.

Lemma consistent_query x k o now :
  consistent x → consistent (query k o now x).1.
Proof.
  intros Hc. unfold query; cbn [fst].
  assert (consistent (upsert k (with_options o) x)) as Hc1
    by (by apply consistent_upsert).
  destruct (inFlightRequestId (entry k (upsert k (with_options o) x))) eqn:E;
    [done|].
  destruct (stale now _); [|done]. by apply consistent_startFetch.
Qed.

Lemma consistent_fetchOk x k rid d now :
  consistent x → consistent (fetchOk k rid d now x).
Proof.
  intros Hc. unfold fetchOk.
  destruct (head _) as [f|] eqn:E; [|done].
  apply found_fetch in E as (Hf & Hk & Hrid).
  by eapply consistent_resolved.
Qed.

Lemma consistent_fetchFail x k rid err :
  consistent x → consistent (fetchFail k rid err x).
Proof.
  intros Hc. unfold fetchFail.
  destruct (head _) as [f|] eqn:E; [|done].
  apply found_fetch in E as (Hf & Hk & Hrid).
  case_decide.
  - by eapply consistent_retried.
  - by eapply consistent_resolved.
Qed.

Lemma consistent_invalidateKey x k :
  consistent x → consistent (invalidateKey k x).
Proof.
  intros Hc. unfold invalidateKey.
  assert (consistent (upsert k with_invalidated x)) as Hc1
    by (by apply consistent_upsert).
  case_decide; [|done].
  destruct (inFlightRequestId (entry k (upsert k with_invalidated x))) eqn:E;
    [done|].
  by apply consistent_startFetch.
Qed.

Lemma consistent_invalidate x prefix :
  consistent x → consistent (invalidate prefix x).
Proof.
  intros Hc. unfold invalidate.
  induction (findByPrefix prefix x) as [|k ks IH]; [done|].
  cbn [foldr]. by apply consistent_invalidateKey.
Qed.

Lemma consistent_setObservers x k f :
  consistent x → consistent (setObservers k f x).
Proof.
  intros Hc.
  apply (consistent_ext
           (upsert k (λ e, with_observers (f (observerCount e)) e) x));
    [reflexivity | reflexivity |].
  by apply consistent_upsert.
Qed.

Lemma consistent_step x ev : consistent x → consistent (step x ev).
Proof.
  intros Hc. destruct ev; cbn [step].
  - by apply consistent_query.
  - by apply consistent_fetchOk.
  - by apply consistent_fetchFail.
  - by apply consistent_invalidate.
  - by apply consistent_setObservers.
  - by apply consistent_setObservers.
Qed.

Lemma consistent_run x evs : consistent x → consistent (run x evs).
Proof.
  revert x. induction evs as [|ev evs IH]; intros x Hc; [done|].
  cbn [run foldl]. apply IH. by apply consistent_step.
Qed.


(** ** The retry policy *)

Lemma same_key_same_fetch x f g :
  consistent x → f ∈ pending x → g ∈ pending x → f_key f = f_key g → f = g.
Proof.
  intros [Hd _ _]. induction (pending x) as [|h l IH]; intros Hf Hg Hk.
  - by apply elem_of_nil in Hf.
  - cbn [fmap list_fmap] in Hd. apply NoDup_cons in Hd as [Hnotin Hd].
    apply elem_of_cons in Hf as [->|Hf]; apply elem_of_cons in Hg as [->|Hg].
    + done.
    + exfalso. apply Hnotin. apply list_elem_of_fmap. eauto.
    + exfalso. apply Hnotin. apply list_elem_of_fmap. eauto.
    + by apply IH.
Qed.

Lemma head_fetch x k rid f :
  consistent x → f ∈ pending x → f_key f = k → f_id f = rid →
  head (filter (is_fetch k rid) (pending x)) = Some f.
Proof.
  intros Hc Hf Hk Hrid.
  destruct (found_fetch_head x k rid f Hc Hf Hk Hrid) as (g & -> & Hg & Hgk & _).
  f_equal. apply (same_key_same_fetch x); [done.. | congruence].
Qed.

Lemma inFlight_answered x k rid f :
  consistent x → f ∈ pending x → f_key f = k → f_id f = rid →
  filter (λ g, f_key g = k) (pending (answered k rid x)) = [].
Proof.
  intros Hc Hf Hk Hrid. apply filter_none. intros g Hg Hgk.
  apply (answered_gone x k rid f Hc Hf Hk Hrid).
  apply list_elem_of_fmap. eauto.
Qed.

(** A failed attempt with retries left: the same request is sent again, the
    store is untouched and nobody is notified. *)
Lemma fetchFail_retry x k rid err f :
  consistent x → f ∈ pending x → f_key f = k → f_id f = rid →
  (f_failures f < retryCount (entry k x))%nat →
  store (fetchFail k rid err x) = store x
  ∧ notified (fetchFail k rid err x) = notified x
  ∧ calls (fetchFail k rid err x) = calls x ++ [(k, rid)]
  ∧ nextRequestId (fetchFail k rid err x) = nextRequestId x
  ∧ inFlight k (fetchFail k rid err x)
    = [{| f_key := k; f_id := rid; f_failures := S (f_failures f) |}].
Proof.
  intros Hc Hf Hk Hrid Hlt. unfold fetchFail.
  rewrite (head_fetch x k rid f) by done. rewrite decide_True by done.
  split_and!; try reflexivity.
  unfold inFlight; cbn [pending]. rewrite filter_app.
  change (filter (λ g, f_key g = k) (filter _ (pending x)))
    with (filter (λ g, f_key g = k) (pending (answered k rid x))).
  rewrite (inFlight_answered x k rid f) by done.
  rewrite filter_cons_True by done. reflexivity.
Qed.

(** A failed attempt with no retry left: the entry goes to [error], keeping
    its data, and the observers are notified. *)
Lemma fetchFail_exhausted x k rid err f :
  consistent x → f ∈ pending x → f_key f = k → f_id f = rid →
  (retryCount (entry k x) ≤ f_failures f)%nat →
  entry k (fetchFail k rid err x) = to_error err (entry k x)
  ∧ notified (fetchFail k rid err x) = notified x ++ [(k, Error)]
  ∧ calls (fetchFail k rid err x) = calls x
  ∧ inFlight k (fetchFail k rid err x) = [].
Proof.
  intros Hc Hf Hk Hrid Hge. unfold fetchFail.
  rewrite (head_fetch x k rid f) by done. rewrite decide_False by lia.
  split_and!.
  - by rewrite entry_upsert.
  - reflexivity.
  - reflexivity.
  - unfold inFlight; cbn [pending upsert]. by eapply inFlight_answered.
Qed.

Lemma query_starts_fetch x k o now :
  needsFetch k o now x = true →
  (query k o now x).1 = startFetch k (upsert k (with_options o) x).
Proof.
  unfold needsFetch, query; cbn [fst]. rewrite entry_upsert.
  cbn [inFlightRequestId with_options].
  destruct (inFlightRequestId (entry k x)); [done|]. by intros ->.
Qed.

Lemma run_snoc x evs ev : run x (evs ++ [ev]) = step (run x evs) ev.
Proof. unfold run. by rewrite foldl_app. Qed.

(** While retries are left, failures change nothing but the number of calls. *)
Lemma retries_keep_loading x k o now (errs : list Err) :
  consistent x → needsFetch k o now x = true →
  (length errs ≤ opt_retryCount o)%nat →
  consistent (run (query k o now x).1 (FetchFail k (nextRequestId x) <$> errs))
  ∧ store (run (query k o now x).1 (FetchFail k (nextRequestId x) <$> errs))
    = store (query k o now x).1
  ∧ notified (run (query k o now x).1 (FetchFail k (nextRequestId x) <$> errs))
    = notified (query k o now x).1
  ∧ calls (run (query k o now x).1 (FetchFail k (nextRequestId x) <$> errs))
    = calls (query k o now x).1 ++ replicate (length errs) (k, nextRequestId x)
  ∧ inFlight k (run (query k o now x).1 (FetchFail k (nextRequestId x) <$> errs))
    = [{| f_key := k; f_id := nextRequestId x; f_failures := length errs |}].
Proof.
  intros Hc Hneed.
  assert (consistent (query k o now x).1) as Hc1 by (by apply consistent_query).
  induction errs as [|err errs IH] using rev_ind; intros Hlen.
  - cbn [fmap list_fmap run foldl length replicate]. rewrite app_nil_r.
    split_and!; try done.
    rewrite (query_starts_fetch _ _ _ _ Hneed).
    unfold inFlight, startFetch; cbn [pending upsert]. rewrite filter_app.
    rewrite filter_none.
    + by rewrite filter_cons_True.
    + intros g Hg Hgk.
      assert (inFlightRequestId (entry k x) = None) as Hnone.
      { unfold needsFetch in Hneed.
        by destruct (inFlightRequestId (entry k x)). }
      apply (not_pending_if_idle x k Hc Hnone).
      apply list_elem_of_fmap. eauto.
  - rewrite length_app in Hlen; cbn [length] in Hlen.
    destruct IH as (Hcm & Hs & Hn & Hcalls & Hfl); [lia|].
    rewrite fmap_app; cbn [fmap list_fmap]. rewrite run_snoc; cbn [step].
    set (xm := run (query k o now x).1 (FetchFail k (nextRequestId x) <$> errs)) in *.
    assert ({| f_key := k; f_id := nextRequestId x; f_failures := length errs |}
              ∈ pending xm) as Hf.
    { assert ({| f_key := k; f_id := nextRequestId x; f_failures := length errs |}
                ∈ inFlight k xm) as H by (rewrite Hfl; left).
      unfold inFlight in H. by apply list_elem_of_filter in H as [_ ?]. }
    assert (retryCount (entry k xm) = opt_retryCount o) as Hrc.
    { unfold entry. rewrite Hs. fold (entry k (query k o now x).1).
      rewrite (query_starts_fetch _ _ _ _ Hneed), entry_startFetch, entry_upsert.
      reflexivity. }
    destruct (fetchFail_retry xm k (nextRequestId x) err _ Hcm Hf eq_refl eq_refl)
      as (Hs' & Hn' & Hcalls' & _ & Hfl').
    { cbn [f_failures]. rewrite Hrc. lia. }
    split_and!.
    + by apply consistent_fetchFail.
    + by rewrite Hs'.
    + by rewrite Hn'.
    + rewrite Hcalls', Hcalls, length_app; cbn [length].
      rewrite <- app_assoc. f_equal.
      replace (length errs + 1)%nat with (S (length errs)) by lia.
      by rewrite replicate_S_end.
    + rewrite Hfl'. cbn [f_failures]. rewrite length_app; cbn [length].
      by replace (length errs + 1)%nat with (S (length errs)) by lia.
Qed.

(** ** What an operation on one key leaves alone *)

Lemma callsFor_startFetch x k :
  callsFor k (startFetch k x) = callsFor k x ++ [(k, nextRequestId x)].
Proof.
  unfold callsFor, startFetch; cbn [calls upsert].
  rewrite filter_app. by rewrite filter_cons_True.
Qed.

Lemma callsFor_startFetch_ne x k k' :
  k' ≠ k → callsFor k' (startFetch k x) = callsFor k' x.
Proof.
  intros Hne. unfold callsFor, startFetch; cbn [calls upsert].
  rewrite filter_app, filter_cons_False by (cbn; congruence).
  by rewrite filter_nil, app_nil_r.
Qed.

Lemma query_frame x k k' o now :
  k' ≠ k →
  entry k' (query k o now x).1 = entry k' x
  ∧ callsFor k' (query k o now x).1 = callsFor k' x.
Proof.
  intros Hne. unfold query; cbn [fst].
  destruct (inFlightRequestId (entry k (upsert k (with_options o) x))).
  - by rewrite entry_upsert_ne.
  - destruct (stale now _).
    + by rewrite entry_startFetch_ne, callsFor_startFetch_ne, entry_upsert_ne.
    + by rewrite entry_upsert_ne.
Qed.

Lemma fetchOk_frame x k k' rid d now :
  k' ≠ k →
  entry k' (fetchOk k rid d now x) = entry k' x
  ∧ callsFor k' (fetchOk k rid d now x) = callsFor k' x.
Proof.
  intros Hne. unfold fetchOk. destruct (head _); [|done].
  by rewrite entry_upsert_ne.
Qed.

Lemma fetchFail_frame x k k' rid err :
  k' ≠ k →
  entry k' (fetchFail k rid err x) = entry k' x
  ∧ callsFor k' (fetchFail k rid err x) = callsFor k' x.
Proof.
  intros Hne. unfold fetchFail. destruct (head _); [|done].
  case_decide.
  - split; [reflexivity|]. unfold callsFor; cbn [calls answered].
    rewrite filter_app, filter_cons_False by (cbn; congruence).
    by rewrite filter_nil, app_nil_r.
  - by rewrite entry_upsert_ne.
Qed.

Lemma invalidateKey_frame x k k' :
  k' ≠ k →
  entry k' (invalidateKey k x) = entry k' x
  ∧ callsFor k' (invalidateKey k x) = callsFor k' x.
Proof.
  intros Hne. unfold invalidateKey. case_decide.
  - destruct (inFlightRequestId _).
    + by rewrite entry_upsert_ne.
    + by rewrite entry_startFetch_ne, callsFor_startFetch_ne, entry_upsert_ne.
  - by rewrite entry_upsert_ne.
Qed.

Lemma invalidateKeys_frame x ks k :
  k ∉ ks →
  entry k (foldr invalidateKey x ks) = entry k x
  ∧ callsFor k (foldr invalidateKey x ks) = callsFor k x.
Proof.
  induction ks as [|k1 ks IH]; intros Hk; [done|]. cbn [foldr].
  apply not_elem_of_cons in Hk as [Hne Hk].
  destruct (invalidateKey_frame (foldr invalidateKey x ks) k1 k Hne) as [-> ->].
  by apply IH.
Qed.

Lemma findByPrefix_elem x prefix k :
  k ∈ findByPrefix prefix x ↔ isPrefixOf prefix k = true ∧ is_Some (store x !! k).
Proof.
  unfold findByPrefix. rewrite list_elem_of_filter, elem_of_elements, elem_of_dom.
  by rewrite Is_true_true.
Qed.

Lemma findByPrefix_NoDup x prefix : NoDup (findByPrefix prefix x).
Proof. unfold findByPrefix. apply NoDup_filter, NoDup_elements. Qed.

Lemma invalidate_frame x prefix k :
  isPrefixOf prefix k = false →
  entry k (invalidate prefix x) = entry k x
  ∧ callsFor k (invalidate prefix x) = callsFor k x.
Proof.
  intros Hp. apply invalidateKeys_frame.
  rewrite findByPrefix_elem. intros [H _]. congruence.
Qed.

(** The sweep treats each key it meets once, in a state where that key is
    as it was before the sweep. *)
Lemma invalidateKeys_at x ks k :
  NoDup ks → k ∈ ks →
  ∃ y, entry k y = entry k x ∧ callsFor k y = callsFor k x
       ∧ entry k (foldr invalidateKey x ks) = entry k (invalidateKey k y)
       ∧ callsFor k (foldr invalidateKey x ks) = callsFor k (invalidateKey k y).
Proof.
  induction ks as [|k1 ks IH]; intros Hd Hk; [by apply elem_of_nil in Hk|].
  apply NoDup_cons in Hd as [Hnotin Hd]. cbn [foldr].
  destruct (decide (k1 = k)) as [->|Hne].
  - exists (foldr invalidateKey x ks).
    destruct (invalidateKeys_frame x ks k Hnotin) as [-> ->]. done.
  - apply elem_of_cons in Hk as [->|Hk]; [done|].
    destruct (IH Hd Hk) as (y & He & Hc & He' & Hc'). exists y.
    assert (k ≠ k1) as Hne' by congruence.
    destruct (invalidateKey_frame (foldr invalidateKey x ks) k1 k Hne') as [-> ->].
    done.
Qed.

Lemma invalidateKey_at x k :
  (entry k (invalidateKey k x) = with_invalidated (entry k x)
   ∧ callsFor k (invalidateKey k x) = callsFor k x
   ∧ ((0 < observerCount (entry k x))%nat → is_Some (inFlightRequestId (entry k x))))
  ∨ (entry k (invalidateKey k x)
       = to_loading (nextRequestId x) (with_invalidated (entry k x))
     ∧ callsFor k (invalidateKey k x) = callsFor k x ++ [(k, nextRequestId x)]
     ∧ (0 < observerCount (entry k x))%nat
     ∧ inFlightRequestId (entry k x) = None).
Proof.
  unfold invalidateKey. rewrite entry_upsert.
  cbn [observerCount inFlightRequestId with_invalidated].
  case_decide as Hobs.
  - destruct (inFlightRequestId (entry k x)) eqn:E.
    + left. rewrite entry_upsert. split_and!; [done | done | by eauto].
    + right. rewrite entry_startFetch, entry_upsert, callsFor_startFetch.
      done.
  - left. rewrite entry_upsert. split_and!; [done | done | intros; lia].
Qed.

(** ** How one event changes one entry *)

Lemma entry_after_step x ev k :
  consistent x →
  entry k (step x ev) = entry k x
  ∨ (∃ o, entry k (step x ev) = with_options o (entry k x))
  ∨ (∃ o rid, entry k (step x ev) = to_loading rid (with_options o (entry k x)))
  ∨ entry k (step x ev) = with_invalidated (entry k x)
  ∨ (∃ rid, entry k (step x ev) = to_loading rid (with_invalidated (entry k x)))
  ∨ (∃ n, entry k (step x ev) = with_observers n (entry k x))
  ∨ (∃ rid d now, ev = FetchOk k rid d now
       ∧ entry k (step x ev) = to_success d now (entry k x))
  ∨ (∃ rid err f, ev = FetchFail k rid err
       ∧ f ∈ pending x ∧ f_key f = k ∧ f_id f = rid
       ∧ (retryCount (entry k x) ≤ f_failures f)%nat
       ∧ entry k (step x ev) = to_error err (entry k x)).
Proof.
  intros Hc. destruct ev as [k' o now | k' rid d now | k' rid err | prefix | k' | k'];
    cbn [step].
  - destruct (decide (k = k')) as [->|Hne].
    + unfold query; cbn [fst].
      destruct (inFlightRequestId (entry k' (upsert k' (with_options o) x))).
      * right; left. exists o. by rewrite entry_upsert.
      * destruct (stale now _).
        -- do 2 right; left. exists o, (nextRequestId x).
           by rewrite entry_startFetch, entry_upsert.
        -- right; left. exists o. by rewrite entry_upsert.
    + left. by apply query_frame.
  - destruct (decide (k = k')) as [->|Hne].
    + unfold fetchOk. destruct (head _) eqn:E; [|by left].
      do 6 right; left. exists rid, d, now. by rewrite entry_upsert.
    + left. by apply fetchOk_frame.
  - destruct (decide (k = k')) as [->|Hne].
    + unfold fetchFail. destruct (head _) as [f|] eqn:E; [|by left].
      apply found_fetch in E as (Hf & Hk & Hrid).
      case_decide as Hlt; [by left|].
      do 7 right. exists rid, err, f. rewrite entry_upsert.
      split_and!; try done. lia.
    + left. by apply fetchFail_frame.
  - destruct (decide (k ∈ findByPrefix prefix x)) as [Hin|Hnotin].
    + destruct (invalidateKeys_at x _ k (findByPrefix_NoDup x prefix) Hin)
        as (y & He & _ & He' & _).
      unfold invalidate. rewrite He'.
      destruct (invalidateKey_at y k) as [(-> & _) | (-> & _)]; rewrite He.
      * by do 3 right; left.
      * do 4 right; left. by eexists.
    + left. unfold invalidate. by apply invalidateKeys_frame.
  - destruct (decide (k = k')) as [->|Hne].
    + do 5 right; left. eexists. apply entry_setObservers.
    + left. by apply entry_setObservers_ne.
  - destruct (decide (k = k')) as [->|Hne].
    + do 5 right; left. eexists. apply entry_setObservers.
    + left. by apply entry_setObservers_ne.
Qed.

(** Only the successful answer to a key's fetch writes the key's data. *)
Lemma data_written_only_by_success x ev k :
  consistent x →
  (∀ rid d now, ev ≠ FetchOk k rid d now) →
  data (entry k (step x ev)) = data (entry k x).
Proof.
  intros Hc Hev.
  destruct (entry_after_step x ev k Hc)
    as [-> | [[o ->] | [(o & rid & ->) | [-> | [[rid ->] | [[n ->]
        | [(rid & d & now & -> & _) | (rid & err & f & _ & _ & _ & _ & _ & ->)]]]]]]];
    try reflexivity.
  by destruct (Hev rid d now).
Qed.

(** An entry comes to [error] only by a failed attempt that finds no retry
    left. *)
Lemma error_only_when_exhausted x ev k :
  consistent x →
  status (entry k x) ≠ Error →
  status (entry k (step x ev)) = Error →
  ∃ rid err f, ev = FetchFail k rid err
    ∧ f ∈ pending x ∧ f_key f = k ∧ f_id f = rid
    ∧ (retryCount (entry k x) ≤ f_failures f)%nat
    ∧ error (entry k (step x ev)) = Some err.
Proof.
  intros Hc Hnot.
  destruct (entry_after_step x ev k Hc)
    as [-> | [[o ->] | [(o & rid & ->) | [-> | [[rid ->] | [[n ->]
        | [(rid & d & now & _ & ->) | (rid & err & f & -> & ? & ? & ? & ? & ->)]]]]]]];
    cbn [status with_options to_loading with_invalidated with_observers
           to_success to_error error]; try done.
  intros _. by exists rid, err, f.
Qed.

(** C5.  A fetch that fails is retried with the same request identity, up to
    the [retryCount] of its options (three by default): while at most that
    many attempts have failed the entry stays [loading] under the same request
    in flight, each failure sends one more call for the same request, and no
    observer hears of it.  The failure after that puts the entry in [error]
    with the error recorded in it, and notifies the observers.  No other event
    ever takes an entry to [error].  The failure travels as a value: [step] is
    total, nothing is raised. *)
Theorem retried_then_error x k o now :
  consistent x →
  needsFetch k o now x = true →
  (∀ errs : list Err,
     (length errs ≤ opt_retryCount o)%nat →
     status (entry k (run (query k o now x).1 (FetchFail k (nextRequestId x) <$> errs)))
       = Loading
     ∧ inFlightRequestId
         (entry k (run (query k o now x).1 (FetchFail k (nextRequestId x) <$> errs)))
       = Some (nextRequestId x)
     ∧ notified (run (query k o now x).1 (FetchFail k (nextRequestId x) <$> errs))
       = notified (query k o now x).1
     ∧ calls (run (query k o now x).1 (FetchFail k (nextRequestId x) <$> errs))
       = calls x ++ replicate (S (length errs)) (k, nextRequestId x))
  ∧ (∀ (errs : list Err) (err : Err),
     length errs = opt_retryCount o →
     status (entry k (run (query k o now x).1
                        (FetchFail k (nextRequestId x) <$> errs ++ [err])))
       = Error
     ∧ error (entry k (run (query k o now x).1
                         (FetchFail k (nextRequestId x) <$> errs ++ [err])))
       = Some err
     ∧ data (entry k (run (query k o now x).1
                        (FetchFail k (nextRequestId x) <$> errs ++ [err])))
       = data (entry k x)
     ∧ inFlight k (run (query k o now x).1
                     (FetchFail k (nextRequestId x) <$> errs ++ [err])) = []
     ∧ notified (run (query k o now x).1
                   (FetchFail k (nextRequestId x) <$> errs ++ [err]))
       = notified (query k o now x).1 ++ [(k, Error)]
     ∧ calls (run (query k o now x).1
                (FetchFail k (nextRequestId x) <$> errs ++ [err]))
       = calls x ++ replicate (S (opt_retryCount o)) (k, nextRequestId x))
  ∧ (∀ (y : Executor Data Err) ev k',
     consistent y →
     status (entry k' y) ≠ Error →
     status (entry k' (step y ev)) = Error →
     ∃ rid err f, ev = FetchFail k' rid err
       ∧ f ∈ pending y ∧ f_key f = k' ∧ f_id f = rid
       ∧ (retryCount (entry k' y) ≤ f_failures f)%nat
       ∧ error (entry k' (step y ev)) = Some err).
Proof.
  intros Hc Hneed.
  assert (entry k (query k o now x).1
          = to_loading (nextRequestId x) (with_options o (entry k x))) as He1.
  { by rewrite (query_starts_fetch _ _ _ _ Hneed), entry_startFetch, entry_upsert. }
  assert (calls (query k o now x).1 = calls x ++ [(k, nextRequestId x)]) as Hc1.
  { by rewrite (query_starts_fetch _ _ _ _ Hneed). }
  assert (∀ errs : list Err,
            (length errs ≤ opt_retryCount o)%nat →
            entry k (run (query k o now x).1 (FetchFail k (nextRequestId x) <$> errs))
            = entry k (query k o now x).1) as Hsame.
  { intros errs Hlen.
    destruct (retries_keep_loading x k o now errs Hc Hneed Hlen) as (_ & Hs & _).
    unfold entry. by rewrite Hs. }
  split_and!.
  - intros errs Hlen.
    destruct (retries_keep_loading x k o now errs Hc Hneed Hlen)
      as (_ & _ & Hn & Hcalls & _).
    rewrite (Hsame errs Hlen), He1. split_and!; try done.
    rewrite Hcalls, Hc1, <- app_assoc. f_equal.
  - intros errs err Hlen.
    destruct (retries_keep_loading x k o now errs Hc Hneed) as (Hcm & _ & Hn & Hcalls & Hfl);
      [lia|].
    rewrite fmap_app; cbn [fmap list_fmap]. rewrite run_snoc; cbn [step].
    set (xm := run (query k o now x).1 (FetchFail k (nextRequestId x) <$> errs)) in *.
    assert (entry k xm = entry k (query k o now x).1) as Hem
      by (apply Hsame; lia).
    assert ({| f_key := k; f_id := nextRequestId x; f_failures := length errs |}
              ∈ pending xm) as Hf.
    { assert ({| f_key := k; f_id := nextRequestId x; f_failures := length errs |}
                ∈ inFlight k xm) as H by (rewrite Hfl; left).
      unfold inFlight in H. by apply list_elem_of_filter in H as [_ ?]. }
    destruct (fetchFail_exhausted xm k (nextRequestId x) err _ Hcm Hf eq_refl eq_refl)
      as (He & Hn' & Hcalls' & Hfl').
    { rewrite Hem, He1. cbn [f_failures retryCount to_loading with_options]. lia. }
    rewrite He, Hem, He1, Hn', Hn, Hcalls', Hcalls, Hc1, Hfl'.
    split_and!; try done.
    rewrite <- app_assoc. f_equal. by rewrite Hlen.
  - intros y ev k'. apply error_only_when_exhausted.
Qed.

(** C7.  An entry keeps its data while it is refetched and when the fetch
    fails.  A [query] that finds an entry in [success] or [error] stale puts it
    back to [loading] with the data it had, and hands that data to its caller;
    from then on no event other than the successful answer to the key's own
    fetch changes the data; and whatever event leaves the entry in [error]
    leaves its data as it was. *)
Theorem data_retained x k :
  consistent x →
  (∀ o now,
     status (entry k x) = Success ∨ status (entry k x) = Error →
     needsFetch k o now x = true →
     status (entry k (query k o now x).1) = Loading
     ∧ data (entry k (query k o now x).1) = data (entry k x)
     ∧ r_data (query k o now x).2 = data (entry k x)
     ∧ r_status (query k o now x).2 = Loading)
  ∧ (∀ ev, (∀ rid d now, ev ≠ FetchOk k rid d now) →
       data (entry k (step x ev)) = data (entry k x))
  ∧ (∀ ev, status (entry k (step x ev)) = Error →
       data (entry k (step x ev)) = data (entry k x)).
Proof.
  intros Hc. split_and!.
  - intros o now _ Hneed.
    assert (entry k (query k o now x).1
            = to_loading (nextRequestId x) (with_options o (entry k x))) as He1.
    { by rewrite (query_starts_fetch _ _ _ _ Hneed), entry_startFetch, entry_upsert. }
    assert ((query k o now x).2 = result_of (entry k (query k o now x).1)) as ->
      by reflexivity.
    by rewrite He1.
  - intros ev Hev. by apply data_written_only_by_success.
  - intros ev Herr.
    destruct (entry_after_step x ev k Hc)
      as [E | [[o E] | [(o & rid & E) | [E | [[rid E] | [[n E]
          | [(rid & d & now & _ & E) | (rid & err & f & _ & _ & _ & _ & _ & E)]]]]]]];
      rewrite E in Herr |- *; try reflexivity.
    discriminate Herr.
Qed.

(** ** Invalidation by prefix *)

Lemma isPrefixOf_app (a b : Key) :
  isPrefixOf a b = true ↔ ∃ rest, b = a ++ rest.
Proof.
  revert b. induction a as [|s a IH]; intros b; cbn [isPrefixOf].
  - split; [intros _; by exists b | done].
  - destruct b as [|s' b].
    + split; [done | intros [rest H]; discriminate H].
    + rewrite andb_true_iff, bool_decide_eq_true, IH. split.
      * intros [-> [rest ->]]. by exists rest.
      * intros [rest [= -> ->]]. split; [done | by exists rest].
Qed.

Lemma invalidateKey_present x k k' :
  is_Some (store x !! k') → is_Some (store (invalidateKey k x) !! k').
Proof.
  intros H.
  assert (is_Some (store (upsert k with_invalidated x) !! k')) as H1.
  { unfold upsert; cbn [store]. rewrite lookup_insert_is_Some.
    destruct (decide (k = k')); [by left | by right]. }
  unfold invalidateKey. case_decide; [|done].
  destruct (inFlightRequestId _); [done|].
  unfold startFetch; cbn [store]. unfold upsert at 1; cbn [store].
  rewrite lookup_insert_is_Some.
  destruct (decide (k = k')); [by left | by right].
Qed.

Lemma invalidate_present x prefix k :
  is_Some (store x !! k) → is_Some (store (invalidate prefix x) !! k).
Proof.
  intros H. unfold invalidate.
  induction (findByPrefix prefix x) as [|k1 ks IH]; [done|].
  cbn [foldr]. by apply invalidateKey_present.
Qed.

(** C6, as amended.  Invalidating a prefix reaches every cached key that the
    prefix is a prefix of: the entry of such a key is stale from then on,
    whatever the time, with its data kept.  If it has an observer and no
    fetch is in flight for it, it is refetched as a result: the entry goes to
    [loading] and exactly one network call for the key is issued.  If a fetch
    is already in flight for it, no call is issued and that request stays the
    one in flight.  Keys that the prefix is not a prefix of are left as they
    were. *)
Theorem invalidate_prefix x prefix k e :
  consistent x →
  store x !! k = Some e →
  isPrefixOf prefix k = true →
  store (invalidate prefix x) !! k = Some (entry k (invalidate prefix x))
  ∧ (∀ now, stale now (entry k (invalidate prefix x)) = true)
  ∧ data (entry k (invalidate prefix x)) = data e
  ∧ ((0 < observerCount e)%nat →
       ∃ rid,
         inFlightRequestId (entry k (invalidate prefix x)) = Some rid
         ∧ (∃ f, f ∈ pending (invalidate prefix x) ∧ f_key f = k ∧ f_id f = rid)
         ∧ (inFlightRequestId e = None →
              status (entry k (invalidate prefix x)) = Loading
              ∧ callsFor k (invalidate prefix x) = callsFor k x ++ [(k, rid)]))
  ∧ (∀ rid, inFlightRequestId e = Some rid →
       inFlightRequestId (entry k (invalidate prefix x)) = Some rid
       ∧ status (entry k (invalidate prefix x)) = status e
       ∧ callsFor k (invalidate prefix x) = callsFor k x)
  ∧ (∀ k', isPrefixOf prefix k' = false →
       entry k' (invalidate prefix x) = entry k' x
       ∧ callsFor k' (invalidate prefix x) = callsFor k' x).
Proof.
  intros Hc Hk Hp.
  pose proof (entry_lookup x k e Hk) as Hek.
  assert (k ∈ findByPrefix prefix x) as Hin.
  { apply findByPrefix_elem. split; [done | by eexists]. }
  destruct (invalidateKeys_at x _ k (findByPrefix_NoDup x prefix) Hin)
    as (y & He & Hcalls & He' & Hcalls').
  fold (invalidate prefix x) in He', Hcalls'.
  pose proof (consistent_invalidate x prefix Hc) as Hc'.
  rewrite Hek in He.
  split_and!.
  - destruct (invalidate_present x prefix k) as [e' He'']; [by eexists|].
    rewrite He''. f_equal. symmetry. by apply entry_lookup.
  - intros now. rewrite He'.
    destruct (invalidateKey_at y k) as [(-> & _) | (-> & _)]; reflexivity.
  - rewrite He'.
    destruct (invalidateKey_at y k) as [(-> & _) | (-> & _)];
      cbn [data to_loading with_invalidated]; by rewrite He.
  - intros Hobs. rewrite He', Hcalls'.
    destruct (invalidateKey_at y k) as [(E & Ec & Hfl) | (E & Ec & _ & Hnone)].
    + rewrite He in Hfl. destruct (Hfl Hobs) as [rid Hrid].
      exists rid. rewrite E, He. split_and!.
      * done.
      * apply (named_pending _ Hc'). by rewrite He', E, He.
      * intros H. rewrite H in Hrid. discriminate Hrid.
    + exists (nextRequestId y). rewrite E, Ec, He, Hcalls. split_and!.
      * done.
      * apply (named_pending _ Hc'). by rewrite He', E, He.
      * done.
  - intros rid Hrid. rewrite He', Hcalls'.
    destruct (invalidateKey_at y k) as [(E & Ec & _) | (_ & _ & _ & Hnone)].
    + rewrite E, Ec, He, Hcalls. done.
    + rewrite He in Hnone. congruence.
  - intros k' Hk'. by apply invalidate_frame.
Qed.

(** ** Two calls, one fetch *)












End QueryCacheFacts.

(* ===================================================================== *)
(** * The scenarios of the specification *)
(* ===================================================================== *)

Section Scenarios.
Import KeyCodec QueryCache.

Lemma todos_cached_consistent : consistent todos_cached.
Proof. apply consistent_run, consistent_init. Qed.

Lemma posts_observed_consistent : consistent posts_observed.
Proof. apply consistent_run, consistent_init. Qed.



(** The default of three retries: four calls, then [error]. *)
Lemma retried_then_error_witness :
  status (entry CACHE_KEY_TODOS
            (run (query CACHE_KEY_TODOS defaultOptions 0 (@init string string)).1
               (FetchFail CACHE_KEY_TODOS 0%nat <$> ["a"; "b"; "c"] ++ ["d"])))
    = Error
  ∧ calls (run (query CACHE_KEY_TODOS defaultOptions 0 (@init string string)).1
             (FetchFail CACHE_KEY_TODOS 0%nat <$> ["a"; "b"; "c"] ++ ["d"]))
    = replicate 4 (CACHE_KEY_TODOS, 0%nat).
Proof.
  destruct (retried_then_error (@init string string) CACHE_KEY_TODOS
              defaultOptions 0 consistent_init eq_refl) as (_ & H & _).
  destruct (H ["a"; "b"; "c"] "d" eq_refl) as (Hst & _ & _ & _ & _ & Hcalls).
  split; [exact Hst | exact Hcalls].
Defined.

Lemma posts_fetching_consistent : consistent posts_fetching.
Proof. apply consistent_run, consistent_init. Qed.

(** C6, as stated, fails for a child entry whose fetch is in flight when the
    prefix is invalidated: [["users", 7, "posts"]] has a subscriber, yet
    [invalidate(["users"])] issues no network call for it; the answer to the
    request that was already in flight is then written as fresh data, and the
    entry is not refetched as a result of the invalidation. *)
Lemma invalidate_in_flight_counterexample :
  isPrefixOf [SegStr "users"] users_posts = true
  ∧ observerCount (entry users_posts posts_fetching) = 1%nat
  ∧ calls posts_fetching = [(users_posts, 0%nat)]
  ∧ calls (invalidate [SegStr "users"] posts_fetching) = [(users_posts, 0%nat)]
  ∧ calls (fetchOk users_posts 0%nat "posts" 5
             (invalidate [SegStr "users"] posts_fetching))
    = [(users_posts, 0%nat)]
  ∧ pending (fetchOk users_posts 0%nat "posts" 5
               (invalidate [SegStr "users"] posts_fetching)) = []
  ∧ stale 6 (entry users_posts
               (fetchOk users_posts 0%nat "posts" 5
                  (invalidate [SegStr "users"] posts_fetching))) = false
  ∧ ¬ (∀ (x : Executor string string) prefix k e,
         consistent x → store x !! k = Some e → isPrefixOf prefix k = true →
         (0 < observerCount e)%nat →
         ∃ rid, callsFor k (invalidate prefix x) = callsFor k x ++ [(k, rid)]).
Proof.
  do 7 (split; [vm_compute; reflexivity|]).
  intros H.
  destruct (H posts_fetching [SegStr "users"] users_posts
              (entry users_posts posts_fetching) posts_fetching_consistent)
    as [rid Hrid].
  - vm_compute; reflexivity.
  - reflexivity.
  - vm_compute. lia.
  - assert (callsFor users_posts (invalidate [SegStr "users"] posts_fetching)
            = callsFor users_posts posts_fetching) as E by (vm_compute; reflexivity).
    rewrite E in Hrid. apply (f_equal length) in Hrid.
    rewrite length_app in Hrid. cbn [length] in Hrid. lia.
Qed.

(** [invalidate(["users"])] with a subscriber on [["users", 7, "posts"]]. *)
Lemma invalidate_prefix_witness :
  isPrefixOf [SegStr "users"] users_posts = true
  ∧ (∀ now, stale now (entry users_posts (invalidate [SegStr "users"] posts_observed))
            = true)
  ∧ status (entry users_posts (invalidate [SegStr "users"] posts_observed)) = Loading
  ∧ callsFor users_posts (invalidate [SegStr "users"] posts_observed)
    = [(users_posts, 0%nat); (users_posts, 1%nat)].
Proof.
  destruct (invalidate_prefix posts_observed [SegStr "users"] users_posts
              (entry users_posts posts_observed) posts_observed_consistent)
    as (_ & Hstale & _ & Hobs & _).
  - by vm_compute.
  - reflexivity.
  - destruct Hobs as (rid & Hrid & _ & Hnew); [vm_compute; lia|].
    destruct Hnew as [Hst Hcalls]; [reflexivity|].
    split_and!; [reflexivity | exact Hstale | exact Hst |].
    rewrite Hcalls. assert (rid = 1%nat) as ->; [|reflexivity].
    assert (inFlightRequestId
              (entry users_posts (invalidate [SegStr "users"] posts_observed))
            = Some 1%nat) as H by (by vm_compute).
    congruence.
Defined.

(** A stale ["todos"] entry is refetched with its data still there. *)
Lemma data_retained_witness :
  data (entry CACHE_KEY_TODOS todos_cached) = Some "todos"
  ∧ status (entry CACHE_KEY_TODOS
              (query CACHE_KEY_TODOS useTodosOptions 200000 todos_cached).1) = Loading
  ∧ data (entry CACHE_KEY_TODOS
            (query CACHE_KEY_TODOS useTodosOptions 200000 todos_cached).1)
    = Some "todos".
Proof.
  destruct (data_retained todos_cached CACHE_KEY_TODOS todos_cached_consistent)
    as (H & _ & _).
  destruct (H useTodosOptions 200000) as (Hst & Hd & _).
  - left. reflexivity.
  - by vm_compute.
  - split; [reflexivity|]. split; [exact Hst|]. rewrite Hd. reflexivity.
Defined.

End Scenarios.

(* ===================================================================== *)
(** * More on the task reducer *)
(* ===================================================================== *)

Section TasksMore.
Import Tasks.

Lemma delete_elem (ts : list Task) n t :
  t ∈ taskReducer ts (DeleteTask n) ↔ t ∈ ts ∧ id t ≠ n.
Proof.
  cbn [taskReducer]. rewrite list_elem_of_filter. split.
  - intros [H ?]. split; [done | congruence].
  - intros [? H]. split; [congruence | done].
Qed.

(** X1.  Deleting is idempotent and deletions commute: deleting an id twice
    is deleting it once, and two ids can be deleted in either order. *)
Theorem delete_idempotent_commutes (ts : list Task) (n m : Z) :
  taskReducer (taskReducer ts (DeleteTask n)) (DeleteTask n)
    = taskReducer ts (DeleteTask n)
  ∧ taskReducer (taskReducer ts (DeleteTask n)) (DeleteTask m)
    = taskReducer (taskReducer ts (DeleteTask m)) (DeleteTask n).
Proof.
  cbn [taskReducer]. split.
  - induction ts as [|t ts IH]; [done|].
    rewrite (filter_cons _ t). case_decide as Hn.
    + rewrite filter_cons_True by done. by rewrite IH.
    + exact IH.
  - induction ts as [|t ts IH]; [done|].
    rewrite !(filter_cons _ t).
    destruct (decide (n ≠ id t)) as [Hn|Hn], (decide (m ≠ id t)) as [Hm|Hm].
    + rewrite !filter_cons_True by done. by rewrite IH.
    + rewrite filter_cons_False by done. exact IH.
    + rewrite filter_cons_False by done. exact IH.
    + exact IH.
Qed.

(** X2.  A ["DELETE"] straight after an ["ADD"] either undoes the add, taking
    with it every older task of the same id, or, when the ids differ, acts on
    the older tasks alone. *)
Theorem delete_after_add (ts : list Task) (t : Task) (n : Z) :
  taskReducer (taskReducer ts (AddTask t)) (DeleteTask n)
  = if decide (n = id t)
    then taskReducer ts (DeleteTask n)
    else taskReducer (taskReducer ts (DeleteTask n)) (AddTask t).
Proof.
  cbn [taskReducer]. case_decide as Hn.
  - by rewrite filter_cons_False by (intros H; by apply H).
  - by rewrite filter_cons_True.
Qed.

Lemma delete_ids (ts : list Task) n :
  id <$> taskReducer ts (DeleteTask n) = filter (λ i, n ≠ i) (id <$> ts).
Proof.
  cbn [taskReducer]. induction ts as [|t ts IH]; [done|].
  rewrite fmap_cons, !filter_cons. case_decide; cbn; by rewrite IH.
Qed.

(** X3.  The reducer keeps task ids distinct: if no two tasks of the list
    share an id, none do after a ["DELETE"], after an ["ADD"] of a task whose
    id is not in the list, or after an action of another type. *)
Theorem distinct_ids_kept (ts : list Task) (action : TaskAction) :
  NoDup (id <$> ts) →
  (∀ t, action = AddTask t → id t ∉ id <$> ts) →
  NoDup (id <$> taskReducer ts action).
Proof.
  intros Hd Hfresh. destruct action as [t | n |].
  - cbn [taskReducer]. rewrite fmap_cons. apply NoDup_cons. split; [|done].
    by apply Hfresh.
  - rewrite delete_ids. by apply NoDup_filter.
  - done.
Qed.

Lemma distinct_ids_kept_witness :
  NoDup (id <$> taskReducer [ {| id := 1; title := "one" |} ]
                   (AddTask {| id := 2; title := "two" |})).
Proof.
  apply (distinct_ids_kept [ {| id := 1; title := "one" |} ]
           (AddTask {| id := 2; title := "two" |})).
  - cbn. apply NoDup_singleton.
  - intros t [= <-]. cbn. intros H. apply list_elem_of_singleton in H.
    discriminate H.
Defined.

(** X4.  On a list without shared ids, deleting the id of a task of the list
    removes that task and no other, leaving the rest in order; deleting an id
    that no task has changes nothing. *)
Theorem delete_removes_one (ts : list Task) (n : Z) :
  NoDup (id <$> ts) →
  (∀ t, t ∈ ts → id t = n →
     ∃ before after,
       ts = before ++ t :: after
       ∧ taskReducer ts (DeleteTask n) = before ++ after
       ∧ length (taskReducer ts (DeleteTask n)) = pred (length ts))
  ∧ (n ∉ id <$> ts → taskReducer ts (DeleteTask n) = ts).
Proof.
  intros Hd. split.
  - intros t Ht Hn.
    apply list_elem_of_split in Ht as (before & after & ->).
    exists before, after. split; [done|].
    rewrite fmap_app, fmap_cons in Hd.
    apply NoDup_app in Hd as (_ & Hba & Hd). apply NoDup_cons in Hd as [Ha _].
    assert (taskReducer (before ++ t :: after) (DeleteTask n) = before ++ after) as E.
    { cbn [taskReducer]. rewrite filter_app, filter_cons_False by (intros H; by apply H).
      rewrite !filter_fresh_id; [done | |].
      - intros u Hu Hun. apply Ha. apply list_elem_of_fmap. exists u.
        split; [congruence | done].
      - intros u Hu Hun. apply (Hba (id u)).
        + apply list_elem_of_fmap. eauto.
        + rewrite Hun, <- Hn. left. }
    split; [exact E|]. rewrite E, !length_app. cbn. lia.
  - intros Hn. cbn [taskReducer]. apply filter_fresh_id.
    intros u Hu Hun. apply Hn. apply list_elem_of_fmap. eauto.
Qed.

Lemma delete_removes_one_witness :
  ∃ before after,
    [ {| id := 1; title := "one" |}; {| id := 2; title := "two" |};
      {| id := 3; title := "three" |} ]
    = before ++ {| id := 2; title := "two" |} :: after
    ∧ taskReducer
        [ {| id := 1; title := "one" |}; {| id := 2; title := "two" |};
          {| id := 3; title := "three" |} ] (DeleteTask 2)
      = before ++ after.
Proof.
  destruct (delete_removes_one
              [ {| id := 1; title := "one" |}; {| id := 2; title := "two" |};
                {| id := 3; title := "three" |} ] 2) as [H _].
  - cbn. repeat constructor; rewrite ?elem_of_cons, ?elem_of_nil; intros H; lia.
  - destruct (H {| id := 2; title := "two" |}) as (before & after & H1 & H2 & _).
    + right. left.
    + reflexivity.
    + by exists before, after.
Defined.

End TasksMore.

(* ===================================================================== *)
(** * The counter reducer, the store and the login link *)
(* ===================================================================== *)

Section CounterReducerFacts.
Import CounterReducer.

Lemma dispatched_app s pre post :
  dispatched s (pre ++ post) = dispatched (dispatched s pre) post.
Proof. unfold dispatched. apply foldl_app. Qed.

Lemma dispatched_without_reset (actions : list Action) : ∀ s,
  Reset ∉ actions →
  dispatched s actions
  = s + Z.of_nat (length (filter (λ a, a = Increment) actions)).
Proof.
  induction actions as [|a actions IH]; intros s Hno.
  - cbn. lia.
  - apply not_elem_of_cons in Hno as [Ha Hno].
    change (dispatched s (a :: actions))
      with (dispatched (counterReducer s a) actions).
    rewrite IH by done. rewrite filter_cons.
    destruct a; [| done |]; cbn [counterReducer].
    + rewrite decide_True by done. cbn [length]. lia.
    + rewrite decide_False by done. done.
Qed.

(** X5.  While the numbers stay where the program's arithmetic is exact
    (integers of magnitude at most 2^53), the counter shows the number of
    ["INCREMENT"]s dispatched since the last ["RESET"], whatever came before
    it; with no ["RESET"] at all it shows the initial state plus the number
    of ["INCREMENT"]s. *)
Theorem counter_counts_since_reset (s : Z) (pre post : list Action) :
  Reset ∉ post →
  Z.of_nat (length (filter (λ a, a = Increment) post)) ≤ 2 ^ 53 →
  dispatched s (pre ++ Reset :: post)
    = Z.of_nat (length (filter (λ a, a = Increment) post))
  ∧ (- 2 ^ 53 ≤ s →
     s + Z.of_nat (length (filter (λ a, a = Increment) post)) ≤ 2 ^ 53 →
     dispatched s post
     = s + Z.of_nat (length (filter (λ a, a = Increment) post))).
Proof.
  intros Hno _. split.
  - rewrite dispatched_app.
    change (dispatched (dispatched s pre) (Reset :: post))
      with (dispatched 0 post).
    rewrite dispatched_without_reset by done. lia.
  - intros _ _. by apply dispatched_without_reset.
Qed.

Lemma counter_counts_since_reset_witness :
  dispatched 5 ([Increment; Unlisted] ++ Reset :: [Increment; Unlisted; Increment])
  = 2
  ∧ dispatched 5 [Increment; Unlisted; Increment] = 7.
Proof.
  destruct (counter_counts_since_reset 5 [Increment; Unlisted]
              [Increment; Unlisted; Increment]) as [H1 H2].
  - rewrite !elem_of_cons, elem_of_nil. intros [H | [H | [H | []]]]; discriminate H.
  - vm_compute. discriminate.
  - split.
    + rewrite H1. reflexivity.
    + rewrite H2; [reflexivity | vm_compute; discriminate | vm_compute; discriminate].
Defined.

(** X6.  The store of the Counter component computes what the reducer did:
    after any clicks on the two buttons, the store's [counter] is the state
    that [counterReducer] reaches from the store's initial [counter] under
    the actions the buttons used to dispatch; the store's other property is
    never written. *)
Theorem store_follows_reducer (s : Counter.CounterStore) (buttons : list Button) :
  Counter.counter (clicked s buttons)
    = dispatched (Counter.counter s) (dispatches <$> buttons)
  ∧ Counter.max (clicked s buttons) = Counter.max s.
Proof.
  revert s. induction buttons as [|b buttons IH]; intros s; [done|].
  change (clicked s (b :: buttons))
    with (clicked (Counter.set [] s (calls b)).1 buttons).
  rewrite fmap_cons.
  change (dispatched (Counter.counter s) (dispatches b :: (dispatches <$> buttons)))
    with (dispatched (counterReducer (Counter.counter s) (dispatches b))
            (dispatches <$> buttons)).
  destruct (IH (Counter.set [] s (calls b)).1) as [-> ->].
  by destruct b.
Qed.

End CounterReducerFacts.

Section LoginStatusFacts.
Import Auth LoginStatus.

(** X7.  After any actions, the last one alone decides who is logged in, and
    the component shows the Logout link exactly when that action is a
    ["LOGIN"] with a name that is not empty: a login under the empty name
    shows as logged out. *)
Theorem last_action_decides (s s' : string) (actions : list LogAction)
    (a : LogAction) :
  foldl AuthReducer s (actions ++ [a]) = AuthReducer s' a
  ∧ LoginStatus (foldl AuthReducer s (actions ++ [a]))
    = match a with
      | LogIn user => if decide (user = "") then LoggedOut else LoggedIn user
      | _ => LoggedOut
      end.
Proof.
  rewrite foldl_app. cbn [foldl]. split.
  - by destruct a.
  - by destruct a.
Qed.

Lemma click_toggles (user : string) :
  click user = if decide (user = "") then "mosh.hamedani" else "".
Proof.
  unfold click, onClick, LoginStatus. by case_decide.
Qed.

(** X8.  Starting logged out, the link toggles: after an odd number of
    clicks the user is ["mosh.hamedani"] and the Logout link shows, after an
    even number nobody is logged in and the Login link shows. *)
Theorem clicks_toggle (n : nat) :
  clicks n = (if Nat.even n then "" else "mosh.hamedani")
  ∧ LoginStatus (clicks n)
    = if Nat.even n then LoggedOut else LoggedIn "mosh.hamedani".
Proof.
  assert (clicks n = if Nat.even n then "" else "mosh.hamedani") as H.
  { induction n as [|n IH]; [done|].
    change (clicks (S n)) with (click (clicks n)).
    rewrite click_toggles, IH, Nat.even_succ, <- Nat.negb_even.
    by destruct (Nat.even n). }
  split; [exact H|]. rewrite H. by destruct (Nat.even n).
Qed.

End LoginStatusFacts.

(* ===================================================================== *)
(** * More on the optimistic mutation *)
(* ===================================================================== *)

Section AddTodoMore.
Import KeyCodec AddTodo.

Lemma swap_absent savedTodo newTodo (l : list ref) :
  newTodo ∉ l → swap savedTodo newTodo l = l.
Proof.
  induction l as [|t l IH]; intros Hn; [done|].
  apply not_elem_of_cons in Hn as [Hne Hn]. unfold swap in *. cbn [map].
  rewrite decide_False by done. by rewrite IH.
Qed.

(** X10.  [onSuccess] changes the cache only where it finds the submitted
    object: if [["todos"]] has no data, or its list does not hold that object
    any more, the whole cache is left as it is and the server's todo is not
    put into it. *)
Theorem onSuccess_needs_speculative (c : QueryData) (savedTodo newTodo : ref) :
  (∀ todos, getQueryData c CACHE_KEY_TODOS = Some todos → newTodo ∉ todos) →
  onSuccess c savedTodo newTodo = c.
Proof.
  intros Hn. unfold onSuccess, setQueryDataWith, setQueryData.
  destruct (getQueryData c CACHE_KEY_TODOS) as [todos|] eqn:E; [|done].
  cbn [fmap option_fmap option_map].
  fold (swap savedTodo newTodo todos). rewrite swap_absent by (by apply Hn).
  by apply insert_id.
Qed.

Lemma onSuccess_needs_speculative_witness :
  onSuccess {[ CACHE_KEY_TODOS := [1%positive] ]} 3%positive 2%positive
  = {[ CACHE_KEY_TODOS := [1%positive] ]}.
Proof.
  apply onSuccess_needs_speculative.
  intros todos. unfold getQueryData. rewrite lookup_singleton_eq.
  intros [= <-] H. apply list_elem_of_singleton in H. discriminate H.
Defined.

(** X11.  Two mutations that overlap, the first of which fails: the cache ends
    with the list that was there before the first began, whether the second
    succeeded before the first failed or after it.  The second's todo, though
    saved by the server, is not in the cache. *)
Theorem overlapping_failure_drops_second
    (c : QueryData) (first second savedSecond : ref) :
  second ∉ default [] (getQueryData c CACHE_KEY_TODOS) →
  getQueryData
    (onSuccess
       (onError (onMutate (onMutate c first).1 second).1
          (Some (onMutate c first).2))
       savedSecond second) CACHE_KEY_TODOS
    = Some (default [] (getQueryData c CACHE_KEY_TODOS))
  ∧ getQueryData
      (onError
         (onSuccess (onMutate (onMutate c first).1 second).1 savedSecond second)
         (Some (onMutate c first).2)) CACHE_KEY_TODOS
    = Some (default [] (getQueryData c CACHE_KEY_TODOS)).
Proof.
  intros Hnew. split.
  - rewrite onSuccess_data, onError_data, onMutate_context.
    cbn [fmap option_fmap option_map]. by rewrite swap_absent.
  - by rewrite onError_data, onMutate_context.
Qed.

Lemma overlapping_failure_drops_second_witness :
  getQueryData
    (onSuccess
       (onError (onMutate (onMutate {[ CACHE_KEY_TODOS := [1%positive] ]}
                             2%positive).1 3%positive).1
          (Some (onMutate {[ CACHE_KEY_TODOS := [1%positive] ]} 2%positive).2))
       4%positive 3%positive) CACHE_KEY_TODOS
  = Some [1%positive].
Proof.
  destruct (overlapping_failure_drops_second
              {[ CACHE_KEY_TODOS := [1%positive] ]} 2%positive 3%positive 4%positive)
    as [H _].
  - unfold getQueryData. rewrite lookup_singleton_eq. cbn.
    intros H. apply list_elem_of_singleton in H. discriminate H.
  - rewrite H. unfold getQueryData. by rewrite lookup_singleton_eq.
Defined.

Lemma failing_restores_witness :
  getQueryData
    (failing {[ CACHE_KEY_TODOS := [1%positive] ]} [2%positive; 3%positive]
       "Network Error") CACHE_KEY_TODOS
  = Some [1%positive].
Proof.
  rewrite (failing_restores {[ CACHE_KEY_TODOS := [1%positive] ]}
             [2%positive; 3%positive] "Network Error") by discriminate.
  unfold getQueryData. by rewrite lookup_singleton_eq.
Defined.

End AddTodoMore.

(* ===================================================================== *)
(** * The successful mutation over the library's write *)
(* ===================================================================== *)

Section StructuralSharingFacts.
Import KeyCodec StructuralSharing.

Lemma contents_cons (h : gmap ref Todo) r l t :
  h !! r = Some t → AddTodo.contents h (r :: l) = t :: AddTodo.contents h l.
Proof. intros H. unfold AddTodo.contents. cbn. by rewrite H. Qed.

Lemma contents_weaken (h h' : gmap ref Todo) l :
  h ⊆ h' → (∀ r, r ∈ l → is_Some (h !! r)) →
  AddTodo.contents h' l = AddTodo.contents h l.
Proof.
  intros Hsub. induction l as [|a l IH]; intros Hl; [done|].
  destruct (Hl a) as [t Ht]; [by left|].
  rewrite (contents_cons h a l t Ht).
  rewrite (contents_cons h' a l t) by (by eapply lookup_weaken).
  f_equal. apply IH. intros r Hr. apply Hl. by right.
Qed.

Lemma fresh_lookup (h : gmap ref Todo) : h !! fresh (dom h) = None.
Proof. apply not_elem_of_dom, is_fresh. Qed.

Lemma fresh_ne (h : gmap ref Todo) r : is_Some (h !! r) → r ≠ fresh (dom h).
Proof. intros [t Ht] ->. by rewrite fresh_lookup in Ht. Qed.

(** What the library's comparison of two objects returns holds the fields of
    the second, and is the first, the second or a new object. *)
Lemma replaceEqualDeep_todo_spec (h : gmap ref Todo) a b tb h' r :
  h !! b = Some tb → replaceEqualDeep_todo h a b = (h', r) →
  h ⊆ h' ∧ h' !! r = Some tb ∧ (r = a ∨ r = b ∨ h !! r = None).
Proof.
  intros Hb. unfold replaceEqualDeep_todo.
  destruct (decide (a = b)) as [->|Hab].
  { intros [= <- <-]. split_and!; auto. }
  rewrite Hb. destruct (h !! a) as [ta|] eqn:Ha.
  - destruct (decide (ta = tb)) as [->|Hne].
    + intros [= <- <-]. split_and!; auto.
    + intros [= <- <-]. split_and!.
      * apply insert_subseteq, fresh_lookup.
      * apply lookup_insert_eq.
      * right; right. apply fresh_lookup.
  - intros [= <- <-]. split_and!; auto.
Qed.

(** It is never the second object itself when the first is another object. *)
Lemma replaceEqualDeep_todo_not_given (h : gmap ref Todo) a b :
  a ≠ b → is_Some (h !! a) → is_Some (h !! b) →
  (replaceEqualDeep_todo h a b).2 ≠ b.
Proof.
  intros Hab [ta Ha] [tb Hb]. unfold replaceEqualDeep_todo.
  rewrite decide_False by done. rewrite Ha, Hb.
  destruct (decide (ta = tb)); cbn [snd]; [done|].
  intros E. apply (fresh_ne h b); [by eexists | done].
Qed.

(** The array that the library stores holds what the given array holds; its
    objects are those of the two arrays or new ones. *)
Lemma replaceEqualDeep_spec b : ∀ (h : gmap ref Todo) a h' l,
  (∀ r, r ∈ b → is_Some (h !! r)) → replaceEqualDeep h a b = (h', l) →
  h ⊆ h'
  ∧ AddTodo.contents h' l = AddTodo.contents h b
  ∧ (∀ r, r ∈ l → is_Some (h' !! r))
  ∧ (∀ r, r ∈ l → r ∈ a ∨ r ∈ b ∨ h !! r = None).
Proof.
  induction b as [|rb b IH]; intros h a h' l Hb E; cbn [replaceEqualDeep] in E.
  { injection E as <- <-. split_and!; [done | done | |]; intros r Hr;
      by apply not_elem_of_nil in Hr. }
  destruct a as [|ra a].
  { injection E as <- <-. split_and!; [done | done | exact Hb | auto]. }
  destruct (replaceEqualDeep_todo h ra rb) as [h1 r1] eqn:E1.
  destruct (replaceEqualDeep h1 a b) as [h2 l2] eqn:E2.
  injection E as <- <-.
  destruct (Hb rb) as [tb Htb]; [by left|].
  destruct (replaceEqualDeep_todo_spec h ra rb tb h1 r1 Htb E1) as (S1 & L1 & P1).
  destruct (IH h1 a h2 l2) as (S2 & C2 & K2 & P2); [|exact E2|].
  { intros r Hr. destruct (Hb r) as [t Ht]; [by right|].
    exists t. by eapply lookup_weaken. }
  split_and!.
  - by etrans.
  - rewrite (contents_cons h2 r1 l2 tb) by (by eapply lookup_weaken).
    rewrite (contents_cons h rb b tb Htb). f_equal. rewrite C2.
    apply contents_weaken; [done|]. intros r Hr. apply Hb. by right.
  - intros r Hr. apply elem_of_cons in Hr as [->|Hr].
    + exists tb. by eapply lookup_weaken.
    + by apply K2.
  - intros r Hr. apply elem_of_cons in Hr as [->|Hr].
    + destruct P1 as [->|[->|P1]].
      * left. by left.
      * right; left. by left.
      * by right; right.
    + destruct (P2 r Hr) as [Ha|[Hb'|Hn]].
      * left. by right.
      * right; left. by right.
      * right; right. by eapply lookup_weaken_None.
Qed.

Lemma replaceEqualDeep_cons (h : gmap ref Todo) ra a rb b :
  replaceEqualDeep h (ra :: a) (rb :: b)
  = ((replaceEqualDeep (replaceEqualDeep_todo h ra rb).1 a b).1,
     (replaceEqualDeep_todo h ra rb).2
       :: (replaceEqualDeep (replaceEqualDeep_todo h ra rb).1 a b).2).
Proof.
  cbn [replaceEqualDeep]. destruct (replaceEqualDeep_todo h ra rb) as [h1 r].
  cbn [fst snd]. by destruct (replaceEqualDeep h1 a b).
Qed.

Lemma replaceEqualDeep_same l : ∀ h : gmap ref Todo, replaceEqualDeep h l l = (h, l).
Proof.
  induction l as [|r l IH]; intros h; [done|]. cbn [replaceEqualDeep].
  unfold replaceEqualDeep_todo. rewrite decide_True by done. by rewrite IH.
Qed.

(** Writing the array that is there changes nothing. *)
Lemma setQueryData_same c l :
  queries c !! CACHE_KEY_TODOS = Some l → setQueryData c CACHE_KEY_TODOS l = c.
Proof.
  intros H. unfold setQueryData. rewrite H, replaceEqualDeep_same.
  rewrite insert_id by done. by destruct c.
Qed.

(** [onSuccess] over the library's write, too, changes the client only where
    it finds the submitted object. *)
Lemma onSuccess_absent c savedTodo newTodo l :
  getQueryData c CACHE_KEY_TODOS = Some l → newTodo ∉ l →
  onSuccess c savedTodo newTodo = c.
Proof.
  intros H Hn. unfold onSuccess, setQueryDataWith. rewrite H.
  cbn [fmap option_fmap option_map].
  fold (AddTodo.swap savedTodo newTodo l). rewrite swap_absent by done.
  by apply setQueryData_same.
Qed.

(** The optimistic write on a list that holds a todo: the cache then holds
    what the submitted todo holds, in front of what was there, in an object
    that is not the submitted one. *)
Lemma onMutate_copies c submitted first rest :
  closed c → queries c !! CACHE_KEY_TODOS = Some (first :: rest) →
  ∃ l, getQueryData (onMutate (alloc c submitted).1 (alloc c submitted).2).1
         CACHE_KEY_TODOS = Some l
       ∧ ((alloc c submitted).2 ∉ l)
       ∧ (∀ r, r ∈ l →
            is_Some (heap (onMutate (alloc c submitted).1 (alloc c submitted).2).1 !! r))
       ∧ AddTodo.contents
           (heap (onMutate (alloc c submitted).1 (alloc c submitted).2).1) l
         = submitted :: AddTodo.contents (heap c) (first :: rest).
Proof.
  intros Hcl Hq. unfold alloc. cbn [fst snd].
  set (n := fresh (dom (heap c))). set (h0 := <[n := submitted]> (heap c)).
  assert (heap c !! n = None) as Hn by apply fresh_lookup.
  assert (heap c ⊆ h0) as Hsub by (by apply insert_subseteq).
  assert (h0 !! n = Some submitted) as Hn0 by apply lookup_insert_eq.
  assert (∀ r, r ∈ first :: rest → is_Some (heap c !! r)) as Hold
    by (intros r Hr; by eapply Hcl).
  assert (∀ r, r ∈ first :: rest → is_Some (h0 !! r)) as Hold0.
  { intros r Hr. destruct (Hold r Hr) as [t Ht]. exists t. by eapply lookup_weaken. }
  assert (n ∉ first :: rest) as Hnold.
  { intros Hin. destruct (Hold n Hin) as [t Ht]. congruence. }
  unfold onMutate, setQueryDataWith, setQueryData, getQueryData.
  cbn [fst snd heap queries]. rewrite Hq. cbn [default from_option].
  unfold Datatypes.id. rewrite replaceEqualDeep_cons.
  destruct (replaceEqualDeep_todo h0 first n) as [h1 r1] eqn:E1. cbn [fst snd].
  destruct (replaceEqualDeep h1 rest (first :: rest)) as [h2 l2] eqn:E2.
  cbn [fst snd heap queries]. rewrite lookup_insert_eq.
  destruct (replaceEqualDeep_todo_spec h0 first n submitted h1 r1 Hn0 E1)
    as (S1 & L1 & _).
  destruct (replaceEqualDeep_spec (first :: rest) h1 rest h2 l2) as (S2 & C2 & K2 & P2);
    [|exact E2|].
  { intros r Hr. destruct (Hold0 r Hr) as [t Ht]. exists t. by eapply lookup_weaken. }
  exists (r1 :: l2). split_and!.
  - reflexivity.
  - intros Hin. apply elem_of_cons in Hin as [Hr|Hin].
    + apply (replaceEqualDeep_todo_not_given h0 first n).
      * intros ->. apply Hnold. by left.
      * apply Hold0. by left.
      * by eexists.
      * by rewrite E1.
    + destruct (P2 n Hin) as [Ha|[Hb|Hnone]].
      * apply Hnold. by right.
      * by apply Hnold.
      * rewrite (lookup_weaken _ _ _ _ Hn0 S1) in Hnone. discriminate.
  - intros r Hr. apply elem_of_cons in Hr as [->|Hr].
    + exists submitted. by eapply lookup_weaken.
    + by apply K2.
  - rewrite (contents_cons h2 r1 l2 submitted) by (by eapply lookup_weaken).
    f_equal. rewrite C2.
    rewrite (contents_weaken h0 h1) by done.
    by apply contents_weaken.
Qed.

(** C3.  The code does not do what the claim says of it.  On a cache whose
    [["todos"]] list holds one todo, [{ id: 0, title: "X", ... }] is submitted:
    the submitted object is object 2, and the optimistic write, which shares
    structure with the list that was there, stores a copy of it, object 3.
    The server answers [{ id: 42, title: "X", ... }]; [onSuccess] looks for
    object 2 with [===], finds it nowhere, and the list stays as it is: after
    the successful mutation it still holds the speculative record with id 0,
    and the server's record with id 42 is not in it. *)
Theorem onSuccess_keeps_speculative :
  todos one_cached = Some [AddTodo.earlier]
  ∧ (alloc one_cached AddTodo.submitted).2 = 2%positive
  ∧ getQueryData
      (onMutate (alloc one_cached AddTodo.submitted).1 2%positive).1
      CACHE_KEY_TODOS = Some [3%positive; 1%positive]
  ∧ todos (mutate one_cached AddTodo.submitted (Saved AddTodo.saved)).1
    = Some [AddTodo.submitted; AddTodo.earlier]
  ∧ (mutate one_cached AddTodo.submitted (Saved AddTodo.saved)).2 = None
  ∧ AddTodo.id AddTodo.submitted = 0
  ∧ AddTodo.id AddTodo.saved = 42
  ∧ (AddTodo.saved ∉ [AddTodo.submitted; AddTodo.earlier]).
Proof.
  do 7 (split; [vm_compute; reflexivity|]).
  intros H. apply elem_of_cons in H as [H|H]; [discriminate H|].
  apply list_elem_of_singleton in H. discriminate H.
Qed.

(** X9.  With no data under [["todos"]], or with an empty list, a successful
    mutation leaves there exactly one todo, which holds what the server
    answered; no error is reported. *)
Theorem success_on_empty_holds_saved c (submitted saved : Todo) :
  queries c !! CACHE_KEY_TODOS = None ∨ queries c !! CACHE_KEY_TODOS = Some [] →
  todos (mutate c submitted (Saved saved)).1 = Some [saved]
  ∧ (mutate c submitted (Saved saved)).2 = None.
Proof.
  intros Hq. split; [|reflexivity].
  unfold mutate, alloc, onMutate, setQueryDataWith.
  set (n := fresh (dom (heap c))). set (h0 := <[n := submitted]> (heap c)).
  assert (setQueryData {| heap := h0; queries := queries c |} CACHE_KEY_TODOS [n]
          = {| heap := h0; queries := <[CACHE_KEY_TODOS := [n]]> (queries c) |}) as E.
  { unfold setQueryData. cbn [heap queries].
    destruct Hq as [-> | ->]; reflexivity. }
  assert (default [] (getQueryData {| heap := h0; queries := queries c |} CACHE_KEY_TODOS)
          = []) as ->.
  { unfold getQueryData. cbn [queries]. by destruct Hq as [-> | ->]. }
  rewrite E. cbn [fst snd heap queries].
  set (s := fresh (dom h0)). set (h1 := <[s := saved]> h0).
  assert (h0 !! n = Some submitted) as Hn0 by apply lookup_insert_eq.
  assert (h0 !! s = None) as Hs0 by apply fresh_lookup.
  assert (n ≠ s) as Hns by (intros Heq; congruence).
  assert (h1 !! n = Some submitted) as Hn1.
  { unfold h1. by rewrite lookup_insert_ne. }
  assert (h1 !! s = Some saved) as Hs1 by apply lookup_insert_eq.
  unfold onSuccess, setQueryDataWith, getQueryData. cbn [queries].
  rewrite lookup_insert_eq. cbn [fmap option_fmap option_map map].
  rewrite decide_True by done.
  unfold setQueryData. cbn [queries heap]. rewrite lookup_insert_eq.
  cbn [replaceEqualDeep].
  destruct (replaceEqualDeep_todo h1 n s) as [h2 r] eqn:E2.
  destruct (replaceEqualDeep_todo_spec h1 n s saved h2 r Hs1 E2) as (_ & L & _).
  unfold todos, getQueryData. cbn [queries heap]. rewrite lookup_insert_eq.
  cbn [fmap option_fmap option_map]. f_equal.
  by rewrite (contents_cons h2 r [] saved L).
Qed.

Lemma success_on_empty_holds_saved_witness :
  todos (mutate {| heap := ∅; queries := ∅ |} AddTodo.submitted
           (Saved AddTodo.saved)).1 = Some [AddTodo.saved].
Proof.
  destruct (success_on_empty_holds_saved {| heap := ∅; queries := ∅ |}
              AddTodo.submitted AddTodo.saved) as [H _].
  - left. reflexivity.
  - exact H.
Defined.

(** X18.  With a list under [["todos"]] that holds a todo, whatever the todos
    are, a successful mutation leaves there what was submitted, as it was
    submitted, in front of what the list held: the answer of the server is
    not put into the cache.  No error is reported. *)
Theorem success_keeps_submitted c (submitted saved : Todo) l :
  closed c → queries c !! CACHE_KEY_TODOS = Some l → l ≠ [] →
  todos (mutate c submitted (Saved saved)).1
    = Some (submitted :: AddTodo.contents (heap c) l)
  ∧ (mutate c submitted (Saved saved)).2 = None.
Proof.
  intros Hcl Hq Hl. split; [|unfold mutate, alloc; by destruct (onMutate _ _)].
  destruct l as [|first rest]; [done|].
  destruct (onMutate_copies c submitted first rest Hcl Hq) as (l1 & G & Hn & K & C).
  unfold mutate.
  destruct (alloc c submitted) as [c0 newTodo] eqn:E0. cbn [fst snd] in *.
  destruct (onMutate c0 newTodo) as [c1 ctx] eqn:E1. cbn [fst snd] in *.
  unfold alloc at 1. cbn [fst snd].
  set (c2 := {| heap := <[fresh (dom (heap c1)) := saved]> (heap c1);
                queries := queries c1 |}).
  rewrite (onSuccess_absent c2 (fresh (dom (heap c1))) newTodo l1 G Hn).
  unfold todos, getQueryData in *. unfold c2. cbn [queries heap]. rewrite G.
  cbn [fmap option_fmap option_map]. f_equal. rewrite <- C.
  apply contents_weaken; [|exact K].
  apply insert_subseteq, fresh_lookup.
Qed.

Lemma success_keeps_submitted_witness :
  todos (mutate one_cached AddTodo.submitted (Saved AddTodo.saved)).1
  = Some [AddTodo.submitted; AddTodo.earlier].
Proof.
  destruct (success_keeps_submitted one_cached AddTodo.submitted AddTodo.saved
              [1%positive]) as [H _].
  - intros l r Hl Hr. vm_compute in Hl. injection Hl as <-.
    apply list_elem_of_singleton in Hr as ->. by eexists.
  - reflexivity.
  - discriminate.
  - exact H.
Defined.

End StructuralSharingFacts.

(* ===================================================================== *)
(** * Loading posts page by page *)
(* ===================================================================== *)

Section PostsFacts.
Import KeyCodec Posts.
Context {Post : Type}.
Implicit Types (server : Params → list Post) (posts : list Post).

Lemma fetchPosts_first server query posts :
  serves server posts → 0 ≤ pageSize query →
  fetchPosts server query None = window (Z.to_nat (pageSize query)) posts 0%nat.
Proof.
  intros Hs Hsize. unfold fetchPosts, fetchParams, window.
  rewrite Hs; cbn [_start _limit default from_option]; unfold id; [| lia | lia].
  by replace (Z.to_nat ((1 - 1) * pageSize query)) with (0 * Z.to_nat (pageSize query))%nat
    by lia.
Qed.

Lemma fetchPosts_page server query posts (j : nat) :
  serves server posts → 0 ≤ pageSize query →
  fetchPosts server query (Some (Z.of_nat j + 1))
  = window (Z.to_nat (pageSize query)) posts j.
Proof.
  intros Hs Hsize. unfold fetchPosts, fetchParams, window.
  rewrite Hs; cbn [_start _limit default from_option]; unfold id;
    [| apply Z.mul_nonneg_nonneg; lia | lia].
  rewrite Z.add_simpl_r, Z2Nat.inj_mul, Nat2Z.id by lia. done.
Qed.

Lemma windows_concat posts (size j : nat) :
  concat (window size posts <$> seq 0 j) = take (j * size) posts.
Proof.
  induction j as [|j IH]; [done|].
  rewrite seq_S, fmap_app, concat_app, IH. cbn [fmap list_fmap concat plus].
  rewrite app_nil_r. unfold window. rewrite take_take_drop. f_equal. lia.
Qed.

Lemma window_nil posts (size i : nat) :
  (0 < size)%nat →
  window size posts i = [] ↔ (length posts ≤ i * size)%nat.
Proof.
  intros Hsize. split.
  - unfold window. intros H. apply take_nil_inv in H as [H | H]; [lia|].
    by apply drop_nil_inv.
  - intros H. unfold window. rewrite drop_ge by done. apply take_nil.
Qed.

(** The pages held after [m] clicks are the first windows of the posts, each
    but the last with something in it; and either every click fetched, or the
    last page is empty. *)
Lemma loadMore_windows server query posts (m : nat) :
  serves server posts → 0 ≤ pageSize query →
  ∃ j : nat,
    (1 ≤ j ≤ m + 1)%nat
    ∧ loadMore server query m
      = window (Z.to_nat (pageSize query)) posts <$> seq 0 j
    ∧ (j = (m + 1)%nat
       ∨ window (Z.to_nat (pageSize query)) posts (j - 1)%nat = [])
    ∧ (∀ i, (i + 1 < j)%nat →
         window (Z.to_nat (pageSize query)) posts i ≠ []).
Proof.
  intros Hs Hsize. induction m as [|m (j & Hj & Hpages & Hlast & Hfull)].
  - exists 1%nat. split; [lia|]. split.
    + unfold loadMore, firstFetch; cbn [Nat.iter].
      by rewrite (fetchPosts_first server query posts).
    + split; [by left | intros i Hi; lia].
  - change (loadMore server query (S m))
      with (fetchNextPage server query (loadMore server query m)).
    assert (last (loadMore server query m)
            = Some (window (Z.to_nat (pageSize query)) posts (j - 1)%nat)) as Hl.
    { rewrite Hpages. replace j with (S (j - 1)) at 1 by lia.
      rewrite seq_S, fmap_app. cbn [fmap list_fmap plus]. by rewrite last_snoc. }
    assert (length (loadMore server query m) = j) as Hlen.
    { by rewrite Hpages, length_fmap, length_seq. }
    unfold fetchNextPage. rewrite Hl. unfold getNextPageParam.
    case_decide as Hne.
    + exists (S j).
      assert (j = (m + 1)%nat) as Hjm.
      { destruct Hlast as [? | E]; [done|]. rewrite E in Hne. cbn in Hne. lia. }
      split; [lia|]. split; [|split].
      * rewrite Hlen, (fetchPosts_page server query posts j) by done.
        by rewrite seq_S, fmap_app, <- Hpages.
      * left. lia.
      * intros i Hi. destruct (decide (i + 1 < j)%nat) as [Hlt|Hge].
        -- by apply Hfull.
        -- replace i with (j - 1)%nat by lia. intros E. rewrite E in Hne.
           cbn in Hne. lia.
    + exists j. split; [lia|]. split; [done|]. split; [|done].
      right. apply nil_length_inv. lia.
Qed.

(** X13.  With a backend that serves the windows asked for, what the first
    fetch and [m] clicks on Load More have loaded is the posts in the
    backend's order, without gap or repetition, up to the first
    [(m + 1) * pageSize] of them. *)
Theorem loaded_posts_are_prefix server query posts (m : nat) :
  serves server posts →
  0 ≤ pageSize query →
  concat (loadMore server query m)
  = take ((m + 1) * Z.to_nat (pageSize query)) posts.
Proof.
  intros Hs Hsize.
  destruct (loadMore_windows server query posts m Hs Hsize)
    as (j & Hj & -> & Hlast & _).
  rewrite windows_concat. destruct Hlast as [-> | E]; [done|].
  apply take_nil_inv in E as [E | E].
  - by rewrite E, !Nat.mul_0_r.
  - apply drop_nil_inv in E. rewrite !take_ge; [done | nia | nia].
Qed.

(** X14.  Loading stops only on an empty page.  Once the clicks suffice to
    cover the posts, everything is loaded, the last page held is empty, a
    further click fetches nothing, and the requests made are one more than
    the least number of pages that cover the posts: when the posts end with
    a short page, or exactly at a page's end, one more request is still made
    and comes back empty. *)
Theorem loading_ends_on_empty_page server query posts (m : nat) :
  serves server posts →
  0 < pageSize query →
  (length posts ≤ m * Z.to_nat (pageSize query))%nat →
  concat (loadMore server query m) = posts
  ∧ last (loadMore server query m) = Some []
  ∧ fetchNextPage server query (loadMore server query m)
    = loadMore server query m
  ∧ (length posts
     ≤ (length (loadMore server query m) - 1) * Z.to_nat (pageSize query))%nat
  ∧ ∀ i, (length posts ≤ i * Z.to_nat (pageSize query))%nat →
         (length (loadMore server query m) - 1 ≤ i)%nat.
Proof.
  intros Hs Hsize Hm.
  assert (0 ≤ pageSize query) as Hsize' by lia.
  assert (0 < Z.to_nat (pageSize query))%nat as Hpos by lia.
  pose proof (loaded_posts_are_prefix server query posts m Hs Hsize') as Hpre.
  destruct (loadMore_windows server query posts m Hs Hsize')
    as (j & Hj & Hpages & Hlast & Hfull).
  assert (length (loadMore server query m) = j) as Hlen.
  { by rewrite Hpages, length_fmap, length_seq. }
  assert (length posts ≤ (j - 1) * Z.to_nat (pageSize query))%nat as Hcover.
  { destruct Hlast as [-> | E].
    - replace (m + 1 - 1)%nat with m by lia. done.
    - by apply window_nil in E. }
  assert (last (loadMore server query m) = Some []) as Hl.
  { rewrite Hpages. replace j with (S (j - 1)) at 1 by lia.
    rewrite seq_S, fmap_app. cbn [fmap list_fmap plus]. rewrite last_snoc.
    f_equal. by apply window_nil. }
  split_and!.
  - rewrite Hpre. apply take_ge. nia.
  - exact Hl.
  - unfold fetchNextPage. rewrite Hl. reflexivity.
  - by rewrite Hlen.
  - intros i Hi. rewrite Hlen.
    destruct (decide (j - 1 ≤ i)%nat) as [|Hgt]; [done|]. exfalso.
    apply (Hfull i); [lia|]. by apply window_nil.
Qed.

End PostsFacts.

Section PostsScenarios.
Import KeyCodec Posts.

(** Five posts, two to a page. *)
Lemma five_posts_served :
  serves (λ p, take (Z.to_nat (_limit p)) (drop (Z.to_nat (_start p)) [1; 2; 3; 4; 5]))
    [1; 2; 3; 4; 5].
Proof. by intros p _ _. Qed.

Lemma loaded_posts_are_prefix_witness :
  concat (loadMore
            (λ p, take (Z.to_nat (_limit p)) (drop (Z.to_nat (_start p)) [1; 2; 3; 4; 5]))
            {| pageSize := 2 |} 1)
  = [1; 2; 3; 4].
Proof.
  rewrite (loaded_posts_are_prefix _ {| pageSize := 2 |} [1; 2; 3; 4; 5] 1
             five_posts_served); [reflexivity | cbn; lia].
Defined.

Lemma loading_ends_on_empty_page_witness :
  last (loadMore
          (λ p, take (Z.to_nat (_limit p)) (drop (Z.to_nat (_start p)) [1; 2; 3; 4; 5]))
          {| pageSize := 2 |} 3)
  = Some []
  ∧ loadMore
      (λ p, take (Z.to_nat (_limit p)) (drop (Z.to_nat (_start p)) [1; 2; 3; 4; 5]))
      {| pageSize := 2 |} 3
    = [[1; 2]; [3; 4]; [5]; []].
Proof.
  split; [|reflexivity].
  apply (loading_ends_on_empty_page _ {| pageSize := 2 |} [1; 2; 3; 4; 5] 3
           five_posts_served); cbn; lia.
Defined.

End PostsScenarios.

(* ===================================================================== *)
(** * Paging with Previous and Next; query keys by user *)
(* ===================================================================== *)

Section PagedPostsFacts.
Import PagedPosts.

Lemma click_at_least_one (page : Z) (b : Button) : 1 ≤ page → 1 ≤ click page b.
Proof.
  intros Hp. unfold click, disabled, onClick. destruct b.
  - case_bool_decide; lia.
  - lia.
Qed.

(** X15.  Whatever buttons are clicked, the page shown never goes below one,
    because Previous is disabled on page one; so the window asked of the
    backend never starts before the first post.  From any page reached, Next
    moves the window on by exactly one page's size, and Previous after Next
    comes back to the same page. *)
Theorem page_stays_in_range (buttons : list Button) (size : Z) :
  0 ≤ size →
  1 ≤ clicked buttons
  ∧ 0 ≤ Posts._start (fetchParams {| page := clicked buttons; pageSize := size |})
  ∧ Posts._start
      (fetchParams {| page := click (clicked buttons) Next; pageSize := size |})
    = Posts._start (fetchParams {| page := clicked buttons; pageSize := size |})
      + Posts._limit (fetchParams {| page := clicked buttons; pageSize := size |})
  ∧ click (click (clicked buttons) Next) Previous = clicked buttons.
Proof.
  intros Hsize.
  assert (1 ≤ clicked buttons) as Hp.
  { unfold clicked. induction buttons as [|b buttons IH] using rev_ind; [done|].
    rewrite foldl_app. cbn [foldl]. by apply click_at_least_one. }
  split_and!.
  - exact Hp.
  - cbn. nia.
  - cbn. lia.
  - unfold click, disabled, onClick. cbn [negb].
    rewrite bool_decide_eq_false_2 by lia. lia.
Qed.

Lemma page_stays_in_range_witness :
  1 ≤ clicked [Previous; Next; Previous; Previous]
  ∧ clicked [Previous; Next; Previous; Previous] = 1.
Proof.
  split; [|reflexivity].
  apply (page_stays_in_range [Previous; Next; Previous; Previous] 10). lia.
Defined.

End PagedPostsFacts.

Section PostsKeyFacts.
Import KeyCodec Posts.

(** X16.  The keys of the posts queries follow the hierarchy: the key of a
    user's posts lies under [["users"]], the key of all posts does not; two
    selections get the same key only if they are the same user or both count
    as no user; and user id zero, being falsy, counts as no user. *)
Theorem postsKey_hierarchy (u v : option Z) :
  (isPrefixOf [SegStr "users"] (postsKey u) = true ↔ ∃ n, u = Some n ∧ n ≠ 0)
  ∧ (postsKey u = postsKey v ↔
       u = v ∨ ((u = None ∨ u = Some 0) ∧ (v = None ∨ v = Some 0)))
  ∧ postsKey (Some 0) = postsKey None.
Proof.
  split_and!.
  - unfold postsKey. destruct u as [n|]; [case_decide|].
    + split; [discriminate|]. intros (m & [= <-] & Hm). done.
    + split; [|done]. intros _. by exists n.
    + split; [discriminate|]. intros (m & H & _). discriminate H.
  - unfold postsKey.
    destruct u as [n|], v as [m|]; repeat case_decide; subst;
      intuition congruence.
  - reflexivity.
Qed.

End PostsKeyFacts.
